(** * Writer of the Minecraft protocol (minecraft/protocol/writer.go)

    A shallow embedding of the [protocol.Writer] methods used by the item
    stack, entity metadata, block position and UUID encoders.  Bytes are
    integers in [0, 256); a Go [intN] / [uintN] is an integer of [Z] in its
    range, with the wrap-around of conversions written out.  A [Writer] method
    appends to the byte buffer of the underlying [io.ByteWriter]; a method that
    panics stops with the bytes written so far. *)

From Stdlib Require Import ZArith Lia String.
From stdpp Require Import base list gmap sets.
Import ListNotations.
Open Scope Z_scope.

(** ** Go integers *)

Definition two32 : Z := 2 ^ 32.
Definition two64 : Z := 2 ^ 64.

(** [uint32(x)] and [uint64(x)]: reduction modulo 2^w. *)
Definition to_uint32 (z : Z) : Z := z mod two32.
Definition to_uint64 (z : Z) : Z := z mod two64.

(** [int32(x)]: two's-complement reinterpretation of the low 32 bits. *)
Definition to_int32 (z : Z) : Z :=
  let u := z mod two32 in if u <? 2 ^ 31 then u else u - two32.

(** [byte(x)]: the low 8 bits. *)
Definition to_byte (z : Z) : Z := Z.land z 255.

Definition is_int32 (z : Z) : Prop := - 2 ^ 31 <= z < 2 ^ 31.
Definition is_int64 (z : Z) : Prop := - 2 ^ 63 <= z < 2 ^ 63.

(** ** The writer: a state of appended bytes, with panics *)

Inductive outcome :=
| Ok (buf : list Z)
| Panic (msg : string) (buf : list Z).

(** A [Writer] method of Go: it returns nothing, extends the buffer, and may
    panic. *)
Definition W := list Z -> outcome.

Definition ret : W := fun b => Ok b.

Definition seqw (m k : W) : W :=
  fun b => match m b with
           | Ok b' => k b'
           | Panic e b' => Panic e b'
           end.

Infix ">>>" := seqw (at level 65, right associativity).

(** [_ = w.w.WriteByte(c)] *)
Definition WriteByte (c : Z) : W := fun b => Ok (b ++ [to_byte c]).

(** [_, _ = w.w.Write(p)] *)
Definition WriteBytes (p : list Z) : W := fun b => Ok (b ++ map to_byte p).

(** [w.panicf(format, a...)] *)
Definition panicf (msg : string) : W := fun b => Panic msg b.

Definition buffer_of (o : outcome) : list Z :=
  match o with Ok b => b | Panic _ b => b end.

(** ** Varints *)

(** The loop shared by the four varint writers:
<<
    for u >= 0x80 {
        _ = w.w.WriteByte(byte(u) | 0x80)
        u >>= 7
    }
    _ = w.w.WriteByte(byte(u))
>>
    [fuel] bounds the number of iterations; the writers pass the bit width,
    more than the loop ever runs on a value of that width. *)
Fixpoint varint_loop (fuel : nat) (u : Z) : W :=
  match fuel with
  | O => WriteByte (to_byte u)
  | S f =>
      if u >=? 128
      then WriteByte (Z.lor (to_byte u) 128) >>> varint_loop f (Z.shiftr u 7)
      else WriteByte (to_byte u)
  end.

(** [func (w *Writer) Varuint32(x *uint32)] *)
Definition Varuint32 (x : Z) : W := varint_loop 32 x.

(** [func (w *Writer) Varuint64(x *uint64)] *)
Definition Varuint64 (x : Z) : W := varint_loop 64 x.

(** [ux := uint32(u) << 1; if u < 0 { ux = ^ux }] *)
Definition zigzag32 (u : Z) : Z :=
  let ux := to_uint32 (Z.shiftl (to_uint32 u) 1) in
  if u <? 0 then Z.lxor ux (two32 - 1) else ux.

(** [ux := uint64(u) << 1; if u < 0 { ux = ^ux }] *)
Definition zigzag64 (u : Z) : Z :=
  let ux := to_uint64 (Z.shiftl (to_uint64 u) 1) in
  if u <? 0 then Z.lxor ux (two64 - 1) else ux.

(** [func (w *Writer) Varint32(x *int32)] *)
Definition Varint32 (x : Z) : W := varint_loop 32 (zigzag32 x).

(** [func (w *Writer) Varint64(x *int64)] *)
Definition Varint64 (x : Z) : W := varint_loop 64 (zigzag64 x).

(** The bytes a writer appends to an empty buffer. *)
Definition bytes_of (m : W) : list Z := buffer_of (m []).

Definition varuint32_bytes (x : Z) : list Z := bytes_of (Varuint32 x).
Definition varint32_bytes (x : Z) : list Z := bytes_of (Varint32 x).
Definition varint64_bytes (x : Z) : list Z := bytes_of (Varint64 x).

Example varint32_minus_one : varint32_bytes (-1) = [1]. Proof. reflexivity. Qed.
Example varint32_300 : varint32_bytes 300 = [216; 4]. Proof. reflexivity. Qed.
Example varuint32_300 : varuint32_bytes 300 = [172; 2]. Proof. reflexivity. Qed.
Example varint64_min : varint64_bytes (- 2 ^ 63) =
  [255; 255; 255; 255; 255; 255; 255; 255; 255; 1]. Proof. reflexivity. Qed.

#[local] Set Warnings "-register-all".

(** ** Dynamic values

    A Go [interface{}] value as stored in an entity metadata map or in an NBT
    compound ([map[string]interface{}]): the nine dynamic types the writer
    knows, and any other type, kept by the name [reflect.TypeOf] prints.
    Floats are kept as their IEEE-754 bit pattern. *)
Inductive GoValue :=
| GByte (v : Z)
| GInt16 (v : Z)
| GInt32 (v : Z)
| GFloat32 (bits : Z)
| GString (s : string)
| GCompound (m : list (string * GoValue))
| GBlockPos (x y z : Z)
| GInt64 (v : Z)
| GVec3 (x y z : Z)
| GOther (type_name : string).

(** [nbt.Encoding] *)
Inductive Encoding := NetworkLittleEndian | LittleEndian | BigEndian.

(** [protocol.BlockPos], a [[3]int32]. *)
Record BlockPos := mkBlockPos { bp_x : Z; bp_y : Z; bp_z : Z }.

(** Collaborators of the writer defined outside writer.go: the fixed-width
    writers [Writer.Int16] and [Writer.Float32], the NBT encoder of package
    [nbt] (bytes written to the buffer, and the error [Encode] returns), and
    the entity metadata type tags [entityDataByte] ... [entityDataVec3].  The
    theorems hold for every choice of them. *)
Record Env := mkEnv {
  int16_bytes : Z -> list Z;
  float32_bytes : Z -> list Z;
  nbt_encode : list (string * GoValue) -> Encoding -> list Z * option string;
  entityDataByte : Z;
  entityDataInt16 : Z;
  entityDataInt32 : Z;
  entityDataFloat32 : Z;
  entityDataString : Z;
  entityDataCompoundTag : Z;
  entityDataBlockPos : Z;
  entityDataInt64 : Z;
  entityDataVec3 : Z
}.

(** Modelled from the spec: the [protocol.ItemStack] struct, whose declaration
    is not among the sources: NetworkID an int32, MetadataValue and Count Go
    [int]s, an optional NBT compound and two ordered lists of block names. *)
Record ItemStack := mkItemStack {
  NetworkID : Z;
  MetadataValue : Z;
  Count : Z;
  NBTData : list (string * GoValue);
  CanBePlacedOn : list string;
  CanBreak : list string
}.

Section Writer.
Variable env : Env.

(** [func (w *Writer) Uint8(x *uint8)] *)
Definition Uint8 (x : Z) : W := WriteByte x.

(** [func (w *Writer) Int16(x *int16)], defined outside writer.go. *)
Definition Int16 (x : Z) : W := fun b => Ok (b ++ int16_bytes env x).

(** [func (w *Writer) Float32(x *float32)], defined outside writer.go. *)
Definition Float32 (x : Z) : W := fun b => Ok (b ++ float32_bytes env x).

(** [[]byte(s)] *)
Definition string_to_bytes (s : string) : list Z :=
  map (fun c => Z.of_nat (Ascii.nat_of_ascii c)) (list_ascii_of_string s).

(** [func (w *Writer) String(x *string)] *)
Definition String (x : string) : W :=
  Varuint32 (to_uint32 (Z.of_nat (String.length x))) >>>
  WriteBytes (string_to_bytes x).

(** [func (w *Writer) Vec3(x *mgl32.Vec3)] *)
Definition Vec3 (x y z : Z) : W := Float32 x >>> Float32 y >>> Float32 z.

(** [func (w *Writer) BlockPos(x *BlockPos)] *)
Definition BlockPosW (x : BlockPos) : W :=
  Varint32 (bp_x x) >>> Varint32 (bp_y x) >>> Varint32 (bp_z x).

(** [func (w *Writer) UBlockPos(x *BlockPos)] *)
Definition UBlockPos (x : BlockPos) : W :=
  Varint32 (bp_x x) >>>
  (let y := to_uint32 (bp_y x) in Varuint32 y) >>>
  Varint32 (bp_z x).

(** [func (w *Writer) NBT(x *map[string]interface{}, encoding nbt.Encoding)]:
    the encoder writes to the buffer, and an error it returns is re-panicked. *)
Definition NBT (x : list (string * GoValue)) (encoding : Encoding) : W :=
  fun b => let (bs, err) := nbt_encode env x encoding in
           match err with
           | None => Ok (b ++ bs)
           | Some e => Panic e (b ++ bs)
           end.

(** [func (w *Writer) UnknownEnumOption(value interface{}, enum string)] *)
Definition UnknownEnumOption (value enum : string) : W :=
  panicf ("unknown value '" ++ value ++ "' for enum type '" ++ enum ++ "'")%string.

(** A [for _, e := range l { body(e) }] loop. *)
Fixpoint for_each {A} (body : A -> W) (l : list A) : W :=
  match l with
  | [] => ret
  | e :: l' => body e >>> for_each body l'
  end.

(** The body of the [range] loop of [EntityMetadata], for one entry. *)
Definition entity_entry (kv : Z * GoValue) : W :=
  let (key, value) := kv in
  Varuint32 key >>>
  match value with
  | GByte v => Varuint32 (entityDataByte env) >>> Uint8 v
  | GInt16 v => Varuint32 (entityDataInt16 env) >>> Int16 v
  | GInt32 v => Varuint32 (entityDataInt32 env) >>> Varint32 v
  | GFloat32 v => Varuint32 (entityDataFloat32 env) >>> Float32 v
  | GString v => Varuint32 (entityDataString env) >>> String v
  | GCompound v => Varuint32 (entityDataCompoundTag env) >>> NBT v NetworkLittleEndian
  | GBlockPos x y z => Varuint32 (entityDataBlockPos env) >>> BlockPosW (mkBlockPos x y z)
  | GInt64 v => Varuint32 (entityDataInt64 env) >>> Varint64 v
  | GVec3 x y z => Varuint32 (entityDataVec3 env) >>> Vec3 x y z
  | GOther t => UnknownEnumOption t "entity metadata"
  end.

(** [func (w *Writer) EntityMetadata(x *map[uint32]interface{})].  The map
    is given as its entries in the order one [range] over it visits them;
    Go fixes no order, so the theorems hold for every order. *)
Definition EntityMetadata (x : list (Z * GoValue)) : W :=
  Varuint32 (to_uint32 (Z.of_nat (length x))) >>>
  for_each entity_entry x.

(** [aux := int32(x.MetadataValue<<8) | int32(x.Count)] *)
Definition item_aux (x : ItemStack) : Z :=
  Z.lor (to_int32 (Z.shiftl (MetadataValue x) 8)) (to_int32 (Count x)).

Definition shieldID : Z := 513.

(** [func (w *Writer) Item(x *ItemStack)] *)
Definition Item (x : ItemStack) : W :=
  Varint32 (NetworkID x) >>>
  if NetworkID x =? 0 then ret else
  (let aux := item_aux x in Varint32 aux) >>>
  (if negb (length (NBTData x) =? 0)%nat
   then (let userDataMarker := -1 in let userDataVer := 1 in
         Int16 userDataMarker >>> Uint8 userDataVer >>>
         NBT (NBTData x) NetworkLittleEndian)
   else (let userDataMarker := 0 in Int16 userDataMarker)) >>>
  (let placeOnLen := to_int32 (Z.of_nat (length (CanBePlacedOn x))) in
   let canBreak := to_int32 (Z.of_nat (length (CanBreak x))) in
   Varint32 placeOnLen >>> for_each String (CanBePlacedOn x) >>>
   Varint32 canBreak >>> for_each String (CanBreak x)) >>>
  (if NetworkID x =? shieldID
   then (let blockingTick := 0 in Varint64 blockingTick)
   else ret).

End Writer.

(** ** Byte layouts *)

Definition string_bytes (s : string) : list Z := bytes_of (String s).

Definition strings_bytes (l : list string) : list Z := concat (map string_bytes l).

(** The nested-record field of an item with a non-zero NetworkID. *)
Definition marker_bytes (env : Env) (x : ItemStack) : list Z :=
  if (length (NBTData x) =? 0)%nat then int16_bytes env 0
  else int16_bytes env (-1) ++ [1] ++ fst (nbt_encode env (NBTData x) NetworkLittleEndian).

(** The two block-name lists with their length prefixes. *)
Definition lists_bytes (x : ItemStack) : list Z :=
  varint32_bytes (to_int32 (Z.of_nat (length (CanBePlacedOn x)))) ++
  strings_bytes (CanBePlacedOn x) ++
  varint32_bytes (to_int32 (Z.of_nat (length (CanBreak x)))) ++
  strings_bytes (CanBreak x).

(** Whether the NBT encoder, when the item has NBT data, returns no error. *)
Definition nbt_ok (env : Env) (x : ItemStack) : Prop :=
  length (NBTData x) = 0%nat \/ snd (nbt_encode env (NBTData x) NetworkLittleEndian) = None.

(** An environment for evaluating the writers on concrete inputs:
    little-endian fixed-width numbers, an NBT encoder that writes one byte per
    entry, and the type tags 0 to 8 in declaration order. *)
Definition sample_env : Env :=
  mkEnv (fun x => [Z.land x 255; Z.land (Z.shiftr x 8) 255])
        (fun x => [Z.land x 255; Z.land (Z.shiftr x 8) 255;
                   Z.land (Z.shiftr x 16) 255; Z.land (Z.shiftr x 24) 255])
        (fun m _ => (map (fun _ => 10) m, None))
        0 1 2 3 4 5 6 7 8.

Definition shield_stack : ItemStack :=
  mkItemStack 513 0 1 [] ["stone"%string] [].

Example Item_shield_sample :
  Item sample_env shield_stack [] =
  Ok [130; 8; 2; 0; 0; 2; 5; 115; 116; 111; 110; 101; 0; 0].
Proof. reflexivity. Qed.

(** ** Writers that only append *)

Definition appends (m : W) (bs : list Z) : Prop := forall b, m b = Ok (b ++ bs).

Lemma appends_bytes_of m bs : appends m bs -> bytes_of m = bs.
Proof. intros H. unfold bytes_of. rewrite (H []). reflexivity. Qed.

Lemma appends_seq m k bs cs : appends m bs -> appends k cs -> appends (m >>> k) (bs ++ cs).
Proof. intros Hm Hk b. unfold seqw. rewrite Hm, Hk, app_assoc. reflexivity. Qed.

Lemma seq_appends m k bs b : appends m bs -> (m >>> k) b = k (b ++ bs).
Proof. intros Hm. unfold seqw. rewrite Hm. reflexivity. Qed.

Lemma seqw_assoc m k l b : ((m >>> k) >>> l) b = (m >>> (k >>> l)) b.
Proof. unfold seqw. destruct (m b); reflexivity. Qed.

Ltac app_eq := repeat rewrite <- app_assoc; cbn [app]; reflexivity.

Lemma appends_ret : appends ret [].
Proof. intros b. unfold ret. rewrite app_nil_r. reflexivity. Qed.

Lemma appends_WriteByte c : appends (WriteByte c) [to_byte c].
Proof. intros b. reflexivity. Qed.

Lemma appends_WriteBytes p : appends (WriteBytes p) (map to_byte p).
Proof. intros b. reflexivity. Qed.

Lemma appends_varint_loop f u : appends (varint_loop f u) (bytes_of (varint_loop f u)).
Proof.
  cut (exists bs, appends (varint_loop f u) bs).
  { intros [bs H]. rewrite (appends_bytes_of _ _ H). exact H. }
  revert u; induction f as [|f IH]; intros u; simpl.
  - eexists. apply appends_WriteByte.
  - destruct (u >=? 128).
    + destruct (IH (Z.shiftr u 7)) as [bs H].
      eexists. apply appends_seq; [apply appends_WriteByte | exact H].
    + eexists. apply appends_WriteByte.
Qed.

Lemma appends_Varuint32 x : appends (Varuint32 x) (varuint32_bytes x).
Proof. apply appends_varint_loop. Qed.

Lemma appends_Varint32 x : appends (Varint32 x) (varint32_bytes x).
Proof. apply appends_varint_loop. Qed.

Lemma appends_Varint64 x : appends (Varint64 x) (varint64_bytes x).
Proof. apply appends_varint_loop. Qed.

Lemma appends_String s : appends (String s) (string_bytes s).
Proof.
  assert (H : appends (String s)
                (varuint32_bytes (to_uint32 (Z.of_nat (String.length s))) ++
                 map to_byte (string_to_bytes s))).
  { apply appends_seq; [apply appends_Varuint32 | apply appends_WriteBytes]. }
  unfold string_bytes. rewrite (appends_bytes_of _ _ H). exact H.
Qed.

Lemma appends_strings l : appends (for_each String l) (strings_bytes l).
Proof.
  induction l as [|s l IH]; simpl.
  - apply appends_ret.
  - unfold strings_bytes; simpl. apply appends_seq; [apply appends_String | exact IH].
Qed.

Lemma appends_Int16 env x : appends (Int16 env x) (int16_bytes env x).
Proof. intros b. reflexivity. Qed.

Lemma appends_Uint8 x : appends (Uint8 x) [to_byte x].
Proof. apply appends_WriteByte. Qed.

Lemma appends_NBT env d enc bs :
  nbt_encode env d enc = (bs, None) -> appends (NBT env d enc) bs.
Proof. intros H b. unfold NBT. rewrite H. reflexivity. Qed.

Create HintDb appends.
#[local] Hint Resolve appends_seq appends_ret appends_Varuint32 appends_Varint32
  appends_Varint64 appends_strings appends_Int16 appends_Uint8 : appends.

(** ** The item stack writer, field by field *)

Lemma Item_zero env x b :
  NetworkID x = 0 -> Item env x b = Ok (b ++ varint32_bytes 0).
Proof.
  intros H. unfold Item. rewrite H. rewrite (seq_appends _ _ _ _ (appends_Varint32 0)).
  reflexivity.
Qed.

(** The output from the length prefix of CanBePlacedOn on. *)
Lemma Item_tail x b :
  NetworkID x <> 0 ->
  ((let placeOnLen := to_int32 (Z.of_nat (length (CanBePlacedOn x))) in
    let canBreak := to_int32 (Z.of_nat (length (CanBreak x))) in
    Varint32 placeOnLen >>> for_each String (CanBePlacedOn x) >>>
    Varint32 canBreak >>> for_each String (CanBreak x)) >>>
   (if NetworkID x =? shieldID
    then (let blockingTick := 0 in Varint64 blockingTick) else ret)) b =
  Ok (b ++ lists_bytes x ++ (if NetworkID x =? shieldID then varint64_bytes 0 else [])).
Proof.
  intros _. cbv zeta. refine (appends_seq _ _ _ _ _ _ b).
  - unfold lists_bytes. auto with appends.
  - destruct (NetworkID x =? shieldID); auto with appends.
Qed.

Lemma Item_head x b :
  NetworkID x <> 0 ->
  forall k, (Varint32 (NetworkID x) >>>
   (if NetworkID x =? 0 then ret else (let aux := item_aux x in Varint32 aux) >>> k)) b =
  k (b ++ varint32_bytes (NetworkID x) ++ varint32_bytes (item_aux x)).
Proof.
  intros H k. rewrite (seq_appends _ _ _ _ (appends_Varint32 _)).
  apply Z.eqb_neq in H. rewrite H. cbv zeta.
  rewrite (seq_appends _ _ _ _ (appends_Varint32 _)), app_assoc. reflexivity.
Qed.

Lemma Item_absent env x b :
  NetworkID x <> 0 -> length (NBTData x) = 0%nat ->
  Item env x b =
  Ok (b ++ varint32_bytes (NetworkID x) ++ varint32_bytes (item_aux x) ++
      int16_bytes env 0 ++ lists_bytes x ++
      (if NetworkID x =? shieldID then varint64_bytes 0 else [])).
Proof.
  intros Hn Hl. unfold Item. rewrite (Item_head x b Hn).
  rewrite Hl. simpl negb. cbv iota zeta.
  rewrite (seq_appends _ _ _ _ (appends_Int16 env 0)).
  rewrite (Item_tail x _ Hn). app_eq.
Qed.

Lemma Item_present env x b bs err :
  NetworkID x <> 0 -> length (NBTData x) <> 0%nat ->
  nbt_encode env (NBTData x) NetworkLittleEndian = (bs, err) ->
  Item env x b =
  match err with
  | None => Ok (b ++ varint32_bytes (NetworkID x) ++ varint32_bytes (item_aux x) ++
                int16_bytes env (-1) ++ [1] ++ bs ++ lists_bytes x ++
                (if NetworkID x =? shieldID then varint64_bytes 0 else []))
  | Some e => Panic e (b ++ varint32_bytes (NetworkID x) ++ varint32_bytes (item_aux x) ++
                       int16_bytes env (-1) ++ [1] ++ bs)
  end.
Proof.
  intros Hn Hl He. unfold Item. rewrite (Item_head x b Hn).
  apply Nat.eqb_neq in Hl. rewrite Hl. simpl negb. cbv iota zeta.
  rewrite seqw_assoc, (seq_appends _ _ _ _ (appends_Int16 env (-1))).
  rewrite seqw_assoc, (seq_appends _ _ _ _ (appends_Uint8 1)).
  unfold seqw at 1. unfold NBT at 1. rewrite He. destruct err as [e|].
  - app_eq.
  - rewrite (Item_tail x _ Hn). app_eq.
Qed.

(** The whole output of [Item] when it completes. *)
Lemma Item_ok env x b out :
  NetworkID x <> 0 -> Item env x b = Ok out ->
  nbt_ok env x /\
  out = b ++ varint32_bytes (NetworkID x) ++ varint32_bytes (item_aux x) ++
        marker_bytes env x ++ lists_bytes x ++
        (if NetworkID x =? shieldID then varint64_bytes 0 else []).
Proof.
  intros Hn Hout. unfold marker_bytes, nbt_ok.
  destruct (length (NBTData x) =? 0)%nat eqn:Hl.
  - apply Nat.eqb_eq in Hl. rewrite (Item_absent env x b Hn Hl) in Hout.
    injection Hout as <-. split; [left; exact Hl | reflexivity].
  - apply Nat.eqb_neq in Hl.
    destruct (nbt_encode env (NBTData x) NetworkLittleEndian) as [bs err] eqn:He.
    rewrite (Item_present env x b bs err Hn Hl He) in Hout.
    destruct err as [e|]; [discriminate|].
    injection Hout as <-. split; [right; reflexivity|].
    cbn [fst]. app_eq.
Qed.

Lemma Item_nbt_ok env x b :
  NetworkID x <> 0 -> nbt_ok env x ->
  Item env x b =
  Ok (b ++ varint32_bytes (NetworkID x) ++ varint32_bytes (item_aux x) ++
      marker_bytes env x ++ lists_bytes x ++
      (if NetworkID x =? shieldID then varint64_bytes 0 else [])).
Proof.
  intros Hn Hok. unfold marker_bytes.
  destruct (length (NBTData x) =? 0)%nat eqn:Hl.
  - apply Nat.eqb_eq in Hl. apply (Item_absent env x b Hn Hl).
  - apply Nat.eqb_neq in Hl.
    destruct (nbt_encode env (NBTData x) NetworkLittleEndian) as [bs err] eqn:He.
    destruct Hok as [Hok|Hok]; [contradiction|]. rewrite He in Hok. simpl in Hok. subst err.
    rewrite (Item_present env x b bs None Hn Hl He). cbn [fst]. app_eq.
Qed.

(** ** Claims on the item stack writer *)

(** C2: an item stack whose NetworkID is 0 is written as the one-byte signed
    varint of 0, the byte 0x00, and nothing else. *)
Theorem Item_empty_slot env x b :
  NetworkID x = 0 -> Item env x b = Ok (b ++ [0]).
Proof. intros H. rewrite (Item_zero env x b H). reflexivity. Qed.

Lemma Item_empty_slot_witness :
  NetworkID (mkItemStack 0 7 3 [("a"%string, GByte 1)] ["stone"%string] []) = 0 /\
  Item sample_env (mkItemStack 0 7 3 [("a"%string, GByte 1)] ["stone"%string] []) [5] =
  Ok ([5] ++ [0]).
Proof. split; [reflexivity | apply Item_empty_slot; reflexivity]. Defined.

(** C3: when the item writer completes on a stack with a non-zero NetworkID,
    its output ends, after the CanBreak sequence, with the signed varint64
    blocking-tick field exactly when the NetworkID is the shield identifier
    513; for any other NetworkID nothing follows the CanBreak sequence. *)
Theorem Item_shield_trailer env x b out :
  NetworkID x <> 0 -> Item env x b = Ok out ->
  out = b ++ varint32_bytes (NetworkID x) ++ varint32_bytes (item_aux x) ++
        marker_bytes env x ++ lists_bytes x ++
        (if NetworkID x =? 513 then varint64_bytes 0 else []).
Proof. intros Hn Hout. apply (Item_ok env x b out Hn Hout). Qed.

Lemma Item_shield_trailer_witness :
  NetworkID shield_stack <> 0 /\
  Item sample_env shield_stack [] = Ok [130; 8; 2; 0; 0; 2; 5; 115; 116; 111; 110; 101; 0; 0] /\
  [130; 8; 2; 0; 0; 2; 5; 115; 116; 111; 110; 101; 0; 0] =
    [] ++ varint32_bytes 513 ++ varint32_bytes (item_aux shield_stack) ++
    marker_bytes sample_env shield_stack ++ lists_bytes shield_stack ++
    (if 513 =? 513 then varint64_bytes 0 else []).
Proof.
  assert (Hn : NetworkID shield_stack <> 0) by discriminate.
  assert (Hi : Item sample_env shield_stack [] =
               Ok [130; 8; 2; 0; 0; 2; 5; 115; 116; 111; 110; 101; 0; 0]) by reflexivity.
  split; [exact Hn | split; [exact Hi |]].
  exact (Item_shield_trailer sample_env shield_stack [] _ Hn Hi).
Defined.

(** C5: for a non-zero NetworkID, the nested-record field after the aux word.
    The record is present when the NBT map is non-empty ([len(x.NBTData) != 0]).
    Present: the 16-bit value -1, the version byte 1, then the bytes of the NBT
    encoder in its network little-endian variant (a panic after them if the
    encoder fails).  Absent: the 16-bit value 0, directly followed by the
    CanBePlacedOn length prefix. *)
Theorem Item_nbt_marker env x b :
  NetworkID x <> 0 ->
  (length (NBTData x) <> 0%nat -> forall bs,
     nbt_encode env (NBTData x) NetworkLittleEndian = (bs, None) ->
     Item env x b =
     Ok (b ++ varint32_bytes (NetworkID x) ++ varint32_bytes (item_aux x) ++
         int16_bytes env (-1) ++ [1] ++ bs ++ lists_bytes x ++
         (if NetworkID x =? shieldID then varint64_bytes 0 else []))) /\
  (length (NBTData x) <> 0%nat -> forall bs e,
     nbt_encode env (NBTData x) NetworkLittleEndian = (bs, Some e) ->
     Item env x b =
     Panic e (b ++ varint32_bytes (NetworkID x) ++ varint32_bytes (item_aux x) ++
              int16_bytes env (-1) ++ [1] ++ bs)) /\
  (length (NBTData x) = 0%nat ->
     Item env x b =
     Ok (b ++ varint32_bytes (NetworkID x) ++ varint32_bytes (item_aux x) ++
         int16_bytes env 0 ++ lists_bytes x ++
         (if NetworkID x =? shieldID then varint64_bytes 0 else []))).
Proof.
  intros Hn. split; [|split].
  - intros Hl bs He. exact (Item_present env x b bs None Hn Hl He).
  - intros Hl bs e He. exact (Item_present env x b bs (Some e) Hn Hl He).
  - intros Hl. exact (Item_absent env x b Hn Hl).
Qed.

Definition nbt_stack : ItemStack :=
  mkItemStack 5 0 1 [("Damage"%string, GInt32 3)] [] ["dirt"%string].

Lemma Item_nbt_marker_witness :
  NetworkID nbt_stack <> 0 /\
  Item sample_env nbt_stack [] =
  Ok ([] ++ varint32_bytes 5 ++ varint32_bytes 1 ++ int16_bytes sample_env (-1) ++ [1] ++
      [10] ++ lists_bytes nbt_stack ++ []).
Proof.
  assert (Hn : NetworkID nbt_stack <> 0) by discriminate.
  split; [exact Hn|].
  destruct (Item_nbt_marker sample_env nbt_stack [] Hn) as [Hp _].
  apply (Hp ltac:(discriminate) [10]). reflexivity.
Defined.

(** C8: the blocking-tick field of a shield stack is the varint64 of a fresh
    zero: whatever the other fields of the stack, the output ends with the
    single byte 0x00 after the CanBreak sequence. *)
Theorem Item_shield_tick_zero env x b out :
  NetworkID x = 513 -> Item env x b = Ok out ->
  exists pre, out = pre ++ [0] /\
    pre = b ++ varint32_bytes 513 ++ varint32_bytes (item_aux x) ++
          marker_bytes env x ++ lists_bytes x.
Proof.
  intros Hn Hout.
  assert (Hn' : NetworkID x <> 0) by (rewrite Hn; discriminate).
  destruct (Item_ok env x b out Hn' Hout) as [_ ->].
  rewrite Hn. cbn [Z.eqb shieldID]. eexists. split; [|reflexivity].
  change (varint64_bytes 0) with [0]. app_eq.
Qed.

Lemma Item_shield_tick_zero_witness :
  NetworkID shield_stack = 513 /\
  exists pre, [130; 8; 2; 0; 0; 2; 5; 115; 116; 111; 110; 101; 0; 0] = pre ++ [0] /\
    pre = [] ++ varint32_bytes 513 ++ varint32_bytes (item_aux shield_stack) ++
          marker_bytes sample_env shield_stack ++ lists_bytes shield_stack.
Proof.
  split; [reflexivity|].
  apply (Item_shield_tick_zero sample_env shield_stack []); reflexivity.
Defined.

(** ** Varints against their description *)

(** Zig-zag as the spec words it, on unbounded integers: shift left by one
    bit, and complement the result when the value is negative. *)
Definition zigzag_spec (x : Z) : Z :=
  let s := Z.shiftl x 1 in if x <? 0 then Z.lnot s else s.

(** LEB128 as the spec words it: the 7-bit groups of [u] from the lowest one,
    each with bit 7 set when more groups follow. *)
Definition leb128_groups (u : Z) : nat := S (Z.to_nat (Z.log2 u / 7)).

Definition leb128_spec (u : Z) : list Z :=
  map (fun k => Z.land (Z.shiftr u (7 * Z.of_nat k)) 127 +
                (if (S k <? leb128_groups u)%nat then 128 else 0))
      (seq 0 (leb128_groups u)).

Example leb128_spec_300 : leb128_spec 300 = [172; 2]. Proof. reflexivity. Qed.

Lemma lxor_ones_sub w v :
  0 <= w -> 0 <= v < 2 ^ w -> Z.lxor v (Z.ones w) = Z.ones w - v.
Proof.
  intros Hw Hv.
  assert (Hsub : Z.ones w - v = Z.ldiff (Z.ones w) v).
  { apply Z.sub_nocarry_ldiff.
    apply Z.bits_inj'. intros n Hn.
    rewrite Z.ldiff_spec, Z.bits_0, Z.testbit_ones_nonneg by lia.
    destruct (n <? w) eqn:E; [rewrite andb_false_r; reflexivity|].
    apply Z.ltb_ge in E. rewrite andb_true_r.
    destruct (Z.eq_dec v 0) as [->|Hv0]; [apply Z.bits_0|].
    apply Z.bits_above_log2; [lia|].
    assert (2 ^ w <= 2 ^ n) by (apply Z.pow_le_mono_r; lia).
    apply Z.log2_lt_pow2; lia. }
  rewrite Hsub. apply Z.bits_inj'. intros n Hn.
  rewrite Z.lxor_spec, Z.ldiff_spec, Z.testbit_ones_nonneg by lia.
  destruct (n <? w) eqn:E.
  - destruct (Z.testbit v n); reflexivity.
  - apply Z.ltb_ge in E.
    destruct (Z.eq_dec v 0) as [->|Hv0]; [rewrite Z.bits_0; reflexivity|].
    rewrite Z.bits_above_log2; [reflexivity | lia |].
    assert (2 ^ w <= 2 ^ n) by (apply Z.pow_le_mono_r; lia).
    apply Z.log2_lt_pow2; lia.
Qed.

Lemma zigzag_spec_arith x : zigzag_spec x = if x <? 0 then - 2 * x - 1 else 2 * x.
Proof.
  unfold zigzag_spec. rewrite Z.shiftl_mul_pow2 by lia.
  destruct (x <? 0); [rewrite Z.lnot_eq_pred_opp|]; lia.
Qed.

Lemma zigzag_w w x :
  0 < w -> - 2 ^ (w - 1) <= x < 2 ^ (w - 1) ->
  (let ux := (Z.shiftl (x mod 2 ^ w) 1) mod 2 ^ w in
   if x <? 0 then Z.lxor ux (2 ^ w - 1) else ux) = zigzag_spec x.
Proof.
  intros Hw Hx. cbv zeta. rewrite zigzag_spec_arith, Z.shiftl_mul_pow2 by lia.
  assert (Hp : 2 ^ w = 2 * 2 ^ (w - 1)).
  { rewrite <- Z.pow_succ_r by lia. f_equal. lia. }
  destruct (x <? 0) eqn:E.
  - apply Z.ltb_lt in E.
    assert (Hm : x mod 2 ^ w = x + 2 ^ w).
    { symmetry. apply (Z.mod_unique x (2 ^ w) (-1) (x + 2 ^ w)); lia. }
    rewrite Hm.
    assert (Hm2 : (x + 2 ^ w) * 2 ^ 1 mod 2 ^ w = 2 * x + 2 ^ w).
    { symmetry. rewrite Z.pow_1_r.
      apply (Z.mod_unique ((x + 2 ^ w) * 2) (2 ^ w) 1 (2 * x + 2 ^ w)); lia. }
    rewrite Hm2.
    replace (2 ^ w - 1) with (Z.ones w) by (rewrite Z.ones_equiv; lia).
    rewrite lxor_ones_sub by lia. rewrite Z.ones_equiv. lia.
  - apply Z.ltb_ge in E.
    rewrite Z.pow_1_r. rewrite (Z.mod_small x) by lia. rewrite Z.mod_small by lia. lia.
Qed.

Lemma zigzag32_spec x : is_int32 x -> zigzag32 x = zigzag_spec x.
Proof. intros H. apply (zigzag_w 32); [lia | exact H]. Qed.

Lemma zigzag64_spec x : is_int64 x -> zigzag64 x = zigzag_spec x.
Proof. intros H. apply (zigzag_w 64); [lia | exact H]. Qed.

Lemma to_byte_small z : 0 <= z < 256 -> to_byte z = z.
Proof.
  intros H. unfold to_byte. change 255 with (Z.ones 8).
  rewrite Z.land_ones by lia. apply Z.mod_small. exact H.
Qed.

Lemma lor_128_table :
  forallb (fun r => Z.eqb (Z.lor r 128 mod 2 ^ 8) (r mod 2 ^ 7 + 128))
          (map Z.of_nat (List.seq 0 256)) = true.
Proof. vm_compute. reflexivity. Qed.

(** [byte(u) | 0x80], written as a byte, is the low 7 bits of [u] with bit 7 set. *)
Lemma byte_cont u : to_byte (Z.lor (to_byte u) 128) = Z.land u 127 + 128.
Proof.
  unfold to_byte. change 255 with (Z.ones 8). change 127 with (Z.ones 7).
  rewrite !Z.land_ones by lia.
  rewrite <- (Z.mod_mod_divide u (2 ^ 8) (2 ^ 7)) by (exists 2; reflexivity).
  assert (Hr : 0 <= u mod 2 ^ 8 < 2 ^ 8) by (apply Z.mod_pos_bound; lia).
  generalize dependent (u mod 2 ^ 8). intros r Hr.
  pose proof lor_128_table as Ht. rewrite forallb_forall in Ht.
  specialize (Ht r). rewrite Z.eqb_eq in Ht. apply Ht.
  apply in_map_iff. exists (Z.to_nat r). split; [apply Z2Nat.id; lia|].
  apply in_seq. change (2 ^ 8) with 256 in Hr. lia.
Qed.

Lemma leb128_small u : 0 <= u < 128 -> leb128_spec u = [u].
Proof.
  intros Hu. unfold leb128_spec, leb128_groups.
  assert (Hl : Z.log2 u / 7 = 0).
  { apply Z.div_small. split; [apply Z.log2_nonneg|].
    destruct (Z.eq_dec u 0) as [->|Hu0]; [reflexivity|].
    assert (Z.log2 u < 7) by (apply Z.log2_lt_pow2; lia). lia. }
  rewrite Hl. simpl. rewrite Z.shiftr_0_r. change 127 with (Z.ones 7).
  rewrite Z.land_ones, Z.mod_small by lia. f_equal. lia.
Qed.

Lemma leb128_step u :
  128 <= u -> leb128_spec u = (Z.land u 127 + 128) :: leb128_spec (Z.shiftr u 7).
Proof.
  intros Hu.
  assert (Hg : leb128_groups u = S (leb128_groups (Z.shiftr u 7))).
  { unfold leb128_groups. rewrite Z.log2_shiftr by lia.
    assert (H7 : 7 <= Z.log2 u) by (apply Z.log2_le_pow2; lia).
    rewrite Z.max_r by lia.
    replace (Z.log2 u - 7) with (Z.log2 u + (-1) * 7) by lia.
    rewrite Z.div_add by lia.
    assert (1 <= Z.log2 u / 7) by (apply Z.div_le_lower_bound; lia). lia. }
  unfold leb128_spec at 1. rewrite Hg. cbn [List.seq map].
  f_equal.
  rewrite <- seq_shift, map_map. unfold leb128_spec. apply map_ext. intros k.
  rewrite Z.shiftr_shiftr by lia.
  replace (7 + 7 * Z.of_nat k) with (7 * Z.of_nat (S k)) by lia.
  reflexivity.
Qed.

Lemma varint_loop_leb128 f u :
  0 <= u < 2 ^ (7 * Z.of_nat (S f)) -> bytes_of (varint_loop f u) = leb128_spec u.
Proof.
  revert u; induction f as [|f IH]; intros u Hu.
  - change (2 ^ (7 * Z.of_nat 1)) with 128 in Hu.
    unfold bytes_of; cbn. rewrite (to_byte_small u), (to_byte_small u) by lia.
    symmetry. apply leb128_small. lia.
  - cbn [varint_loop]. destruct (u >=? 128) eqn:E.
    + apply Z.geb_le in E.
      rewrite (appends_bytes_of _ _
                 (appends_seq _ _ _ _ (appends_WriteByte _) (appends_varint_loop f (Z.shiftr u 7)))).
      rewrite IH, byte_cont, (leb128_step u E); [reflexivity|].
      rewrite Z.shiftr_div_pow2 by lia. split; [apply Z.div_pos; lia|].
      apply Z.div_lt_upper_bound; [lia|].
      rewrite <- Z.pow_add_r by lia.
      replace (7 + 7 * Z.of_nat (S f)) with (7 * Z.of_nat (S (S f))) by lia. lia.
    + rewrite Z.geb_leb, Z.leb_gt in E. unfold bytes_of; cbn. rewrite (to_byte_small u), (to_byte_small u) by lia.
      symmetry. apply leb128_small. lia.
Qed.

Lemma varint32_bytes_leb128 x :
  is_int32 x -> varint32_bytes x = leb128_spec (zigzag_spec x).
Proof.
  intros Hx. unfold varint32_bytes, Varint32. rewrite (zigzag32_spec x Hx).
  apply varint_loop_leb128. rewrite zigzag_spec_arith.
  unfold is_int32 in Hx.
  assert (2 ^ 32 <= 2 ^ (7 * Z.of_nat 33)) by (apply Z.pow_le_mono_r; lia).
  destruct (x <? 0) eqn:E; [apply Z.ltb_lt in E | apply Z.ltb_ge in E]; lia.
Qed.

Lemma varint64_bytes_leb128 x :
  is_int64 x -> varint64_bytes x = leb128_spec (zigzag_spec x).
Proof.
  intros Hx. unfold varint64_bytes, Varint64. rewrite (zigzag64_spec x Hx).
  apply varint_loop_leb128. rewrite zigzag_spec_arith.
  unfold is_int64 in Hx.
  assert (2 ^ 64 <= 2 ^ (7 * Z.of_nat 65)) by (apply Z.pow_le_mono_r; lia).
  destruct (x <? 0) eqn:E; [apply Z.ltb_lt in E | apply Z.ltb_ge in E]; lia.
Qed.

Lemma varuint32_bytes_leb128 u :
  0 <= u < two32 -> varuint32_bytes u = leb128_spec u.
Proof.
  intros Hu. apply varint_loop_leb128. unfold two32 in Hu.
  assert (2 ^ 32 <= 2 ^ (7 * Z.of_nat 33)) by (apply Z.pow_le_mono_r; lia). lia.
Qed.

(** ** Claim on the signed varints *)

(** C4: [Varint32] and [Varint64] append the LEB128 encoding (7 bits per byte,
    bit 7 set on every byte but the last) of the zig-zag transform of the
    value (shift left one bit, complement when negative); -1 is written as the
    single byte 0x01 and 0 as the single byte 0x00, in both widths. *)
Theorem Varint_zigzag_leb128 :
  (forall x b, is_int32 x -> Varint32 x b = Ok (b ++ leb128_spec (zigzag_spec x))) /\
  (forall x b, is_int64 x -> Varint64 x b = Ok (b ++ leb128_spec (zigzag_spec x))) /\
  varint32_bytes (-1) = [1] /\ varint32_bytes 0 = [0] /\
  varint64_bytes (-1) = [1] /\ varint64_bytes 0 = [0].
Proof.
  split; [|split]; [intros x b Hx ..|].
  - rewrite (appends_Varint32 x b), (varint32_bytes_leb128 x Hx). reflexivity.
  - rewrite (appends_Varint64 x b), (varint64_bytes_leb128 x Hx). reflexivity.
  - repeat split; reflexivity.
Qed.

Lemma Varint_zigzag_leb128_witness :
  Varint32 (-300) [] = Ok ([] ++ leb128_spec (zigzag_spec (-300))) /\
  Varint64 (2 ^ 40) [] = Ok ([] ++ leb128_spec (zigzag_spec (2 ^ 40))).
Proof.
  destruct Varint_zigzag_leb128 as [H32 [H64 _]].
  split; [apply H32 | apply H64]; unfold is_int32, is_int64; lia.
Defined.

(** ** Claim on the block-name list prefixes *)

(** The layout C1 describes: unsigned varint length prefixes. *)
Definition lists_bytes_unsigned (x : ItemStack) : list Z :=
  varuint32_bytes (Z.of_nat (length (CanBePlacedOn x))) ++
  strings_bytes (CanBePlacedOn x) ++
  varuint32_bytes (Z.of_nat (length (CanBreak x))) ++
  strings_bytes (CanBreak x).

(** C1 (counterexample): a shield stack with one CanBePlacedOn entry.  Its
    length prefix is written as the signed varint of 1, the byte 0x02, where
    the unsigned varint of 1 is the byte 0x01. *)
Lemma Item_length_prefix_unsigned_cex :
  NetworkID shield_stack <> 0 /\ nbt_ok sample_env shield_stack /\
  Item sample_env shield_stack [] <>
  Ok ([] ++ varint32_bytes (NetworkID shield_stack) ++ varint32_bytes (item_aux shield_stack) ++
      marker_bytes sample_env shield_stack ++ lists_bytes_unsigned shield_stack ++
      (if NetworkID shield_stack =? 513 then varint64_bytes 0 else [])).
Proof.
  split; [discriminate | split; [left; reflexivity |]].
  vm_compute. intros H. discriminate H.
Qed.

(** C1 (amended): for a non-zero NetworkID, when the item writer gets past
    the nested record, it writes CanBePlacedOn then CanBreak, each prefixed
    with the signed zig-zag varint32 of [int32(len(list))]; for a count
    [n < 2^31] these are the bytes of the unsigned varint of [2 n]. *)
Theorem Item_length_prefix_signed env x b :
  NetworkID x <> 0 -> nbt_ok env x ->
  Item env x b =
  Ok (b ++ varint32_bytes (NetworkID x) ++ varint32_bytes (item_aux x) ++
      marker_bytes env x ++
      varint32_bytes (to_int32 (Z.of_nat (length (CanBePlacedOn x)))) ++
      strings_bytes (CanBePlacedOn x) ++
      varint32_bytes (to_int32 (Z.of_nat (length (CanBreak x)))) ++
      strings_bytes (CanBreak x) ++
      (if NetworkID x =? 513 then varint64_bytes 0 else [])) /\
  (forall n, 0 <= n < 2 ^ 31 -> varint32_bytes (to_int32 n) = varuint32_bytes (2 * n)).
Proof.
  intros Hn Hok. split.
  - rewrite (Item_nbt_ok env x b Hn Hok). unfold lists_bytes. app_eq.
  - intros n Hrange.
    assert (Ht : to_int32 n = n).
    { unfold to_int32, two32. rewrite Z.mod_small by lia.
      destruct (n <? 2 ^ 31) eqn:E; [reflexivity | apply Z.ltb_ge in E; lia]. }
    rewrite Ht, varint32_bytes_leb128 by (unfold is_int32; lia).
    rewrite varuint32_bytes_leb128 by (unfold two32; lia).
    rewrite zigzag_spec_arith. destruct (n <? 0) eqn:E; [apply Z.ltb_lt in E; lia|].
    reflexivity.
Qed.

Lemma Item_length_prefix_signed_witness :
  Item sample_env shield_stack [] =
  Ok ([] ++ varint32_bytes 513 ++ varint32_bytes (item_aux shield_stack) ++
      marker_bytes sample_env shield_stack ++
      varint32_bytes (to_int32 1) ++ strings_bytes ["stone"%string] ++
      varint32_bytes (to_int32 0) ++ strings_bytes [] ++
      (if 513 =? 513 then varint64_bytes 0 else [])) /\
  varint32_bytes (to_int32 1) = varuint32_bytes (2 * 1).
Proof.
  destruct (Item_length_prefix_signed sample_env shield_stack []
              ltac:(discriminate) (or_introl eq_refl)) as [H1 H2].
  split; [exact H1 | apply H2; lia].
Defined.

(** ** Claim on the unsigned-Y block position *)

(** C9: [UBlockPos] on a negative Y completes without a panic: X and Z as
    signed varints, Y as the unsigned varint of [uint32(y)], that is of
    [y + 2^32] for an int32 [y]. *)
Theorem UBlockPos_negative_y (x : BlockPos) b :
  is_int32 (bp_y x) -> bp_y x < 0 ->
  UBlockPos x b =
  Ok (b ++ varint32_bytes (bp_x x) ++ varuint32_bytes (to_uint32 (bp_y x)) ++
      varint32_bytes (bp_z x)) /\
  to_uint32 (bp_y x) = bp_y x + two32.
Proof.
  intros Hr Hneg. split.
  - unfold UBlockPos. cbv zeta.
    rewrite (seq_appends _ _ _ _ (appends_Varint32 _)).
    rewrite (seq_appends _ _ _ _ (appends_Varuint32 _)).
    rewrite (appends_Varint32 _). app_eq.
  - unfold to_uint32, two32, is_int32 in *. symmetry.
    apply (Z.mod_unique (bp_y x) (2 ^ 32) (-1) (bp_y x + 2 ^ 32)); lia.
Qed.

Lemma UBlockPos_negative_y_witness :
  UBlockPos (mkBlockPos 1 (-1) 2) [] =
  Ok ([] ++ varint32_bytes 1 ++ varuint32_bytes (to_uint32 (-1)) ++ varint32_bytes 2) /\
  to_uint32 (-1) = -1 + two32.
Proof. apply UBlockPos_negative_y; unfold is_int32; simpl; lia. Defined.

Example UBlockPos_minus_one :
  UBlockPos (mkBlockPos 1 (-1) 2) [] = Ok [2; 255; 255; 255; 255; 15; 4].
Proof. reflexivity. Qed.

(** ** Claim on entity metadata *)

Lemma for_each_entity_panics env (m : list (Z * GoValue)) k t :
  In (k, GOther t) m ->
  forall b, exists e b', for_each (entity_entry env) m b = Panic e b'.
Proof.
  induction m as [|[k' v] m IH]; intros Hin b; [destruct Hin|].
  cbn [for_each]. unfold seqw at 1.
  destruct Hin as [Heq|Hin].
  - injection Heq as -> ->. cbn [entity_entry].
    rewrite (seq_appends _ _ _ _ (appends_Varuint32 _)).
    eexists _, _. reflexivity.
  - destruct (entity_entry env (k', v) b) as [b'|e b'].
    + exact (IH Hin b').
    + eexists _, _. reflexivity.
Qed.

(** C7: when the metadata map holds a value of a dynamic type outside the nine
    known ones, [EntityMetadata] panics, whatever order the [range] loop
    visits the entries in. *)
Theorem EntityMetadata_unknown_panics env (m : list (Z * GoValue)) b :
  (exists k t, In (k, GOther t) m) ->
  exists e b', EntityMetadata env m b = Panic e b'.
Proof.
  intros [k [t Hin]]. unfold EntityMetadata.
  rewrite (seq_appends _ _ _ _ (appends_Varuint32 _)).
  exact (for_each_entity_panics env m k t Hin _).
Qed.

Definition metadata_sample : list (Z * GoValue) :=
  [(0, GByte 3); (4, GOther "uint16"%string); (7, GInt64 (-1))].

Lemma EntityMetadata_unknown_panics_witness :
  exists e b', EntityMetadata sample_env metadata_sample [] = Panic e b'.
Proof.
  apply EntityMetadata_unknown_panics. exists 4, "uint16"%string. simpl. tauto.
Defined.

Example EntityMetadata_sample :
  EntityMetadata sample_env metadata_sample [] =
  Panic "unknown value 'uint16' for enum type 'entity metadata'" [3; 0; 0; 3; 4].
Proof. reflexivity. Qed.

(** ** UUIDs and the Go heap

    [Writer.UUID] slices the array its argument points to and appends to the
    slice, so the model keeps the heap of byte arrays: a [uuid.UUID] is a
    [[16]byte] array in the heap, and a slice is a window onto a backing
    array (array, offset, length, capacity), as in Go. *)

Abbreviation heap := (gmap nat (list Z)).

Record slice := mkSlice { s_arr : nat; s_off : nat; s_len : nat; s_cap : nat }.

(** [a[lo:hi]] of an array [a] of length [n]. *)
Definition array_slice (a n lo hi : nat) : slice := mkSlice a lo (hi - lo) (n - lo).

Definition slice_elems (h : heap) (s : slice) : list Z :=
  take (s_len s) (drop (s_off s) (default [] (h !! s_arr s))).

(** [s[i]]; the callers stay within the bounds. *)
Definition slice_load (h : heap) (s : slice) (i : nat) : Z :=
  default 0 (default [] (h !! s_arr s) !! (s_off s + i)%nat).

(** [s[i] = v] *)
Definition slice_store (h : heap) (s : slice) (i : nat) (v : Z) : heap :=
  match h !! s_arr s with
  | Some arr => <[s_arr s := <[(s_off s + i)%nat := v]> arr]> h
  | None => h
  end.

Fixpoint store_from (h : heap) (s : slice) (i : nat) (ys : list Z) : heap :=
  match ys with
  | [] => h
  | y :: ys' => store_from (slice_store h s i y) s (S i) ys'
  end.

(** The capacity [growslice] picks for a small slice: double the old one,
    or the needed length when that is larger (size-class rounding left out). *)
Definition grow_cap (oldcap needed : nat) : nat :=
  if (2 * oldcap <? needed)%nat then needed else (2 * oldcap)%nat.

(** [append(s, ys...)]: in place when the capacity suffices, otherwise into
    a fresh backing array holding a copy of [s] followed by [ys]. *)
Definition append (h : heap) (s : slice) (ys : list Z) : heap * slice :=
  let n := (s_len s + length ys)%nat in
  if (n <=? s_cap s)%nat
  then (store_from h s (s_len s) ys, mkSlice (s_arr s) (s_off s) n (s_cap s))
  else let c := grow_cap (s_cap s) n in
       let k := fresh (dom h) in
       (<[k := slice_elems h s ++ ys ++ replicate (c - n) 0]> h, mkSlice k 0 n c).

(** [for i, j := 0, 15; i < j; i, j = i+1, j-1 { b[i], b[j] = b[j], b[i] }];
    [fuel] bounds the iterations. *)
Fixpoint swap_loop (fuel : nat) (h : heap) (b : slice) (i j : nat) : heap :=
  match fuel with
  | O => h
  | S f =>
      if (i <? j)%nat
      then let bi := slice_load h b i in
           let bj := slice_load h b j in
           swap_loop f (slice_store (slice_store h b i bj) b j bi) b (S i) (j - 1)
      else h
  end.

(** [func (w *Writer) UUID(x *uuid.UUID)], [x] the array at address [a]:
    the heap after the call and the outcome of the writer. *)
Definition UUID (h : heap) (a : nat) (out : list Z) : heap * outcome :=
  let '(h1, b) := append h (array_slice a 16 8 16) (slice_elems h (array_slice a 16 0 8)) in
  let h2 := swap_loop 16 h1 b 0 15 in
  (h2, WriteBytes (slice_elems h2 b) out).

(** The wire order the spec gives: the two 8-byte halves swapped, then the
    whole sequence reversed. *)
Definition uuid_wire (u : list Z) : list Z := rev (drop 8 u ++ take 8 u).

Definition uuid_sample : list Z := map Z.of_nat (List.seq 0 16).

Example UUID_sample :
  snd (UUID {[ 0%nat := uuid_sample ]} 0 []) =
  Ok [7; 6; 5; 4; 3; 2; 1; 0; 15; 14; 13; 12; 11; 10; 9; 8].
Proof. vm_compute. reflexivity. Qed.

(** The swap loop on the backing array alone. *)
Fixpoint swap_arr (fuel : nat) (arr : list Z) (off i j : nat) : list Z :=
  match fuel with
  | O => arr
  | S f =>
      if (i <? j)%nat
      then let bi := default 0 (arr !! (off + i)%nat) in
           let bj := default 0 (arr !! (off + j)%nat) in
           swap_arr f (<[(off + j)%nat := bi]> (<[(off + i)%nat := bj]> arr)) off (S i) (j - 1)
      else arr
  end.

Lemma slice_load_at (h : heap) k arr b i :
  s_arr b = k -> slice_load (<[k := arr]> h) b i = default 0 (arr !! (s_off b + i)%nat).
Proof. intros Hk. unfold slice_load. rewrite Hk, lookup_insert_eq. reflexivity. Qed.

Lemma slice_store_at (h : heap) k arr b i v :
  s_arr b = k ->
  slice_store (<[k := arr]> h) b i v = <[k := <[(s_off b + i)%nat := v]> arr]> h.
Proof. intros Hk. unfold slice_store. rewrite Hk, lookup_insert_eq, insert_insert_eq. reflexivity. Qed.

Lemma swap_loop_at f (h : heap) k arr b i j :
  s_arr b = k ->
  swap_loop f (<[k := arr]> h) b i j = <[k := swap_arr f arr (s_off b) i j]> h.
Proof.
  intros Hk. revert arr i j; induction f as [|f IH]; intros arr i j; [reflexivity|].
  cbn [swap_loop swap_arr]. destruct (i <? j)%nat; [|reflexivity].
  rewrite !slice_load_at by exact Hk.
  rewrite slice_store_at by exact Hk. rewrite slice_store_at by exact Hk.
  apply IH.
Qed.

(** What [UUID] does to the heap and the buffer: a fresh array for [b], the
    halves of [u] copied into it, and the swap loop run on it. *)
Lemma UUID_unfold (h : heap) a u out :
  h !! a = Some u -> length u = 16%nat ->
  UUID h a out =
  (let k := fresh (dom h) in
   let arr := swap_arr 16 (take 8 (drop 8 u) ++ take 8 u ++ replicate 0 0) 0 0 15 in
   (<[k := arr]> h, WriteBytes (take 16 (drop 0 arr)) out)).
Proof.
  intros Hu Hlen.
  assert (E1 : slice_elems h (array_slice a 16 0 8) = take 8 u).
  { unfold slice_elems. cbn [s_arr s_off s_len array_slice]. rewrite Hu. reflexivity. }
  assert (E2 : slice_elems h (array_slice a 16 8 16) = take 8 (drop 8 u)).
  { unfold slice_elems. cbn [s_arr s_off s_len array_slice]. rewrite Hu. reflexivity. }
  unfold UUID, append. rewrite E1, E2, length_take, Hlen. cbn -[swap_loop swap_arr].
  rewrite swap_loop_at by reflexivity. unfold slice_elems. cbn -[swap_arr].
  rewrite lookup_insert_eq. reflexivity.
Qed.

(** ** Claims on the UUID writer *)

(** C6: [UUID] on the [[16]byte] array [u] writes exactly 16 bytes: [u] with
    its halves swapped, then reversed; byte [i] of the output is [u[7-i]] for
    [i < 8] and [u[23-i]] for [8 <= i < 16]. *)
Theorem UUID_wire_order (h : heap) a u out :
  h !! a = Some u -> length u = 16%nat -> Forall (fun z => 0 <= z < 256) u ->
  snd (UUID h a out) = Ok (out ++ uuid_wire u) /\
  length (uuid_wire u) = 16%nat /\
  (forall i, (i < 16)%nat ->
     uuid_wire u !! i = u !! (if (i <? 8)%nat then 7 - i else 23 - i)%nat).
Proof.
  intros Hu Hlen Hbytes. rewrite (UUID_unfold h a u out Hu Hlen). cbn [snd].
  do 16 (destruct u as [|? u]; [discriminate Hlen|]).
  destruct u; [|discriminate Hlen].
  repeat match goal with
         | H : Forall _ (_ :: _) |- _ => apply Forall_cons in H as [? H]
         end.
  split; [|split].
  - unfold WriteBytes. cbn. repeat rewrite to_byte_small by assumption. reflexivity.
  - reflexivity.
  - intros i Hi. do 16 (destruct i as [|i]; [reflexivity|]). lia.
Qed.

Lemma uuid_sample_bytes : Forall (fun z => 0 <= z < 256) uuid_sample.
Proof. unfold uuid_sample. simpl. repeat (constructor; [lia|]). constructor. Qed.

Lemma UUID_wire_order_witness :
  snd (UUID {[ 0%nat := uuid_sample ]} 0 []) = Ok ([] ++ uuid_wire uuid_sample) /\
  length (uuid_wire uuid_sample) = 16%nat /\
  (forall i, (i < 16)%nat ->
     uuid_wire uuid_sample !! i = uuid_sample !! (if (i <? 8)%nat then 7 - i else 23 - i)%nat).
Proof.
  apply UUID_wire_order; [apply lookup_singleton_eq | reflexivity | apply uuid_sample_bytes].
Defined.

(** C10: [UUID] leaves its argument as it was: the slice it reverses has a
    fresh backing array ([append] outgrows the capacity 8 of [x[8:]]), so the
    array [u] and every other array of the heap keep their contents. *)
Theorem UUID_preserves_input (h : heap) a u out :
  h !! a = Some u -> length u = 16%nat ->
  fst (UUID h a out) !! a = Some u /\
  (forall a', a' ∈ dom h -> fst (UUID h a out) !! a' = h !! a').
Proof.
  intros Hu Hlen. rewrite (UUID_unfold h a u out Hu Hlen). cbv zeta. cbn [fst].
  assert (Hframe : forall a', a' ∈ dom h ->
            <[fresh (dom h) := swap_arr 16 (take 8 (drop 8 u) ++ take 8 u ++ replicate 0 0) 0 0 15]> h
              !! a' = h !! a').
  { intros a' Ha'. apply lookup_insert_ne. intros Heq. rewrite <- Heq in Ha'. exact (is_fresh (dom h) Ha'). }
  split; [|exact Hframe].
  rewrite Hframe; [exact Hu|]. apply elem_of_dom. eauto.
Qed.

Lemma UUID_preserves_input_witness :
  fst (UUID {[ 0%nat := uuid_sample ]} 0 []) !! 0%nat = Some uuid_sample /\
  (forall a', a' ∈ dom ({[ 0%nat := uuid_sample ]} : heap) ->
     fst (UUID {[ 0%nat := uuid_sample ]} 0 []) !! a' = ({[ 0%nat := uuid_sample ]} : heap) !! a').
Proof. apply UUID_preserves_input; [apply lookup_singleton_eq | reflexivity]. Defined.

(** * Further properties of the writer *)

(** ** Varint lengths and decoding *)

Definition varuint64_bytes (x : Z) : list Z := bytes_of (Varuint64 x).

(** Reading a varint back (the inverse of the writers' loop): bytes with bit
    7 set carry 7 more bits, the first byte below 0x80 ends the number. *)
Fixpoint leb_read (fuel : nat) (bs : list Z) : option (Z * list Z) :=
  match bs with
  | [] => None
  | c :: rest =>
      if c <? 128 then Some (c, rest)
      else match fuel with
           | O => None
           | S f => match leb_read f rest with
                    | Some (v, r) => Some (c - 128 + 128 * v, r)
                    | None => None
                    end
           end
  end.

Lemma leb_read_loop f u r :
  0 <= u < 2 ^ (7 * Z.of_nat (S f)) ->
  leb_read f (bytes_of (varint_loop f u) ++ r) = Some (u, r).
Proof.
  revert u; induction f as [|f IH]; intros u Hu.
  - change (2 ^ (7 * Z.of_nat 1)) with 128 in Hu.
    unfold bytes_of; cbn. rewrite (to_byte_small u), (to_byte_small u) by lia.
    destruct (u <? 128) eqn:E; [reflexivity | apply Z.ltb_ge in E; lia].
  - cbn [varint_loop]. destruct (u >=? 128) eqn:E.
    + apply Z.geb_le in E.
      rewrite (appends_bytes_of _ _
                 (appends_seq _ _ _ _ (appends_WriteByte _) (appends_varint_loop f (Z.shiftr u 7)))).
      rewrite byte_cont. cbn [app leb_read].
      assert (Hl : 0 <= Z.land u 127 < 128).
      { change 127 with (Z.ones 7). rewrite Z.land_ones by lia.
        apply Z.mod_pos_bound. lia. }
      destruct (Z.land u 127 + 128 <? 128) eqn:E2; [apply Z.ltb_lt in E2; lia|].
      rewrite IH.
      * rewrite Z.shiftr_div_pow2 by lia. change 127 with (Z.ones 7).
        rewrite Z.land_ones by lia. change (2 ^ 7) with 128.
        pose proof (Z.div_mod u 128 ltac:(lia)).
        replace (u mod 128 + 128 - 128 + 128 * (u / 128)) with u by lia. reflexivity.
      * rewrite Z.shiftr_div_pow2 by lia. split; [apply Z.div_pos; lia|].
        apply Z.div_lt_upper_bound; [lia|].
        rewrite <- Z.pow_add_r by lia.
        replace (7 + 7 * Z.of_nat (S f)) with (7 * Z.of_nat (S (S f))) by lia. lia.
    + rewrite Z.geb_leb, Z.leb_gt in E. unfold bytes_of; cbn.
      rewrite (to_byte_small u), (to_byte_small u) by lia.
      destruct (u <? 128) eqn:E2; [reflexivity | apply Z.ltb_ge in E2; lia].
Qed.

Lemma length_leb128_spec u : length (leb128_spec u) = leb128_groups u.
Proof. unfold leb128_spec. rewrite length_map, length_seq. reflexivity. Qed.

Lemma leb128_groups_bound u w :
  0 <= u < 2 ^ w -> 0 < w -> (1 <= leb128_groups u <= S (Z.to_nat ((w - 1) / 7)))%nat.
Proof.
  intros Hu Hw. unfold leb128_groups.
  assert (Hl : 0 <= Z.log2 u <= w - 1).
  { split; [apply Z.log2_nonneg|].
    destruct (Z.eq_dec u 0) as [->|Hu0]; [simpl; lia|].
    assert (Z.log2 u < w) by (apply Z.log2_lt_pow2; lia). lia. }
  assert (Z.log2 u / 7 <= (w - 1) / 7) by (apply Z.div_le_mono; lia).
  assert (0 <= Z.log2 u / 7) by (apply Z.div_pos; lia).
  lia.
Qed.

Lemma leb128_groups_one u : 0 <= u -> leb128_groups u = 1%nat <-> u < 128.
Proof.
  intros Hu. unfold leb128_groups.
  assert (Hd0 : 0 <= Z.log2 u / 7) by (apply Z.div_pos; [apply Z.log2_nonneg | lia]).
  split.
  - intros Hg. assert (Hd : Z.log2 u / 7 = 0) by lia.
    destruct (Z.eq_dec u 0) as [->|Hu0]; [lia|].
    assert (Hlt : Z.log2 u < 7).
    { pose proof (Z.div_mod (Z.log2 u) 7 ltac:(lia)).
      pose proof (Z.mod_pos_bound (Z.log2 u) 7 ltac:(lia)). lia. }
    apply Z.log2_lt_pow2 in Hlt; [|lia]. lia.
  - intros Hlt. destruct (Z.eq_dec u 0) as [->|Hu0]; [reflexivity|].
    assert (Z.log2 u < 7) by (apply Z.log2_lt_pow2; lia).
    rewrite Z.div_small by (split; [apply Z.log2_nonneg | lia]). reflexivity.
Qed.

Lemma varuint64_bytes_leb128 u :
  0 <= u < two64 -> varuint64_bytes u = leb128_spec u.
Proof.
  intros Hu. apply varint_loop_leb128. unfold two64 in Hu.
  assert (2 ^ 64 <= 2 ^ (7 * Z.of_nat 65)) by (apply Z.pow_le_mono_r; lia). lia.
Qed.

Lemma zigzag_spec_range32 x : is_int32 x -> 0 <= zigzag_spec x < two32.
Proof.
  unfold is_int32, two32. intros Hx. rewrite zigzag_spec_arith.
  destruct (x <? 0) eqn:E; [apply Z.ltb_lt in E | apply Z.ltb_ge in E]; lia.
Qed.

Lemma zigzag_spec_range64 x : is_int64 x -> 0 <= zigzag_spec x < two64.
Proof.
  unfold is_int64, two64. intros Hx. rewrite zigzag_spec_arith.
  destruct (x <? 0) eqn:E; [apply Z.ltb_lt in E | apply Z.ltb_ge in E]; lia.
Qed.

Lemma zigzag_spec_inj x y : zigzag_spec x = zigzag_spec y -> x = y.
Proof.
  rewrite !zigzag_spec_arith.
  destruct (x <? 0) eqn:E1, (y <? 0) eqn:E2; lia.
Qed.

Lemma leb_read_varuint32 u r :
  0 <= u < two32 -> leb_read 32 (varuint32_bytes u ++ r) = Some (u, r).
Proof.
  intros Hu. apply leb_read_loop. unfold two32 in Hu.
  assert (2 ^ 32 <= 2 ^ (7 * Z.of_nat 33)) by (apply Z.pow_le_mono_r; lia). lia.
Qed.

Lemma leb_read_varuint64 u r :
  0 <= u < two64 -> leb_read 64 (varuint64_bytes u ++ r) = Some (u, r).
Proof.
  intros Hu. apply leb_read_loop. unfold two64 in Hu.
  assert (2 ^ 64 <= 2 ^ (7 * Z.of_nat 65)) by (apply Z.pow_le_mono_r; lia). lia.
Qed.

Lemma leb_read_varint32 x r :
  is_int32 x -> leb_read 32 (varint32_bytes x ++ r) = Some (zigzag_spec x, r).
Proof.
  intros Hx. unfold varint32_bytes, Varint32. rewrite (zigzag32_spec x Hx).
  apply leb_read_varuint32, zigzag_spec_range32, Hx.
Qed.

Lemma leb_read_varint64 x r :
  is_int64 x -> leb_read 64 (varint64_bytes x ++ r) = Some (zigzag_spec x, r).
Proof.
  intros Hx. unfold varint64_bytes, Varint64. rewrite (zigzag64_spec x Hx).
  apply leb_read_varuint64, zigzag_spec_range64, Hx.
Qed.

(** X1: the varint writers keep the sizes their doc comments give:
    [Varuint32] and [Varint32] write 1 to 5 bytes, [Varuint64] and
    [Varint64] 1 to 10 bytes, on every value of their type. *)
Theorem Varint_lengths :
  (forall u, 0 <= u < two32 -> (1 <= length (varuint32_bytes u) <= 5)%nat) /\
  (forall x, is_int32 x -> (1 <= length (varint32_bytes x) <= 5)%nat) /\
  (forall u, 0 <= u < two64 -> (1 <= length (varuint64_bytes u) <= 10)%nat) /\
  (forall x, is_int64 x -> (1 <= length (varint64_bytes x) <= 10)%nat).
Proof.
  split; [|split; [|split]].
  - intros u Hu. rewrite varuint32_bytes_leb128, length_leb128_spec by exact Hu.
    exact (leb128_groups_bound u 32 Hu ltac:(lia)).
  - intros x Hx. rewrite varint32_bytes_leb128, length_leb128_spec by exact Hx.
    exact (leb128_groups_bound _ 32 (zigzag_spec_range32 x Hx) ltac:(lia)).
  - intros u Hu. rewrite varuint64_bytes_leb128, length_leb128_spec by exact Hu.
    exact (leb128_groups_bound u 64 Hu ltac:(lia)).
  - intros x Hx. rewrite varint64_bytes_leb128, length_leb128_spec by exact Hx.
    exact (leb128_groups_bound _ 64 (zigzag_spec_range64 x Hx) ltac:(lia)).
Qed.

Lemma Varint_lengths_witness :
  (1 <= length (varuint32_bytes (two32 - 1)) <= 5)%nat /\
  (1 <= length (varint64_bytes (- 2 ^ 63)) <= 10)%nat.
Proof.
  destruct Varint_lengths as [H1 [_ [_ H4]]].
  split; [apply H1 | apply H4]; unfold two32, is_int64; lia.
Defined.

(** X2: on a value that fits in 32 bits the 32- and 64-bit writers write the
    same bytes: [Varuint32] and [Varuint64] on a uint32, [Varint32] and
    [Varint64] on an int32. *)
Theorem Varint_widths_agree :
  (forall u, 0 <= u < two32 -> varuint32_bytes u = varuint64_bytes u) /\
  (forall x, is_int32 x -> varint32_bytes x = varint64_bytes x).
Proof.
  split.
  - intros u Hu. rewrite varuint32_bytes_leb128, varuint64_bytes_leb128 by (unfold two32, two64 in *; lia).
    reflexivity.
  - intros x Hx. rewrite varint32_bytes_leb128, varint64_bytes_leb128 by (unfold is_int32, is_int64 in *; lia).
    reflexivity.
Qed.

Lemma Varint_widths_agree_witness :
  varuint32_bytes 300 = varuint64_bytes 300 /\ varint32_bytes (-2) = varint64_bytes (-2).
Proof.
  destruct Varint_widths_agree as [H1 H2].
  split; [apply H1 | apply H2]; unfold two32, is_int32; lia.
Defined.

(** X3: the unsigned varints delimit themselves: when the bytes of two
    values, each followed by more bytes, form the same stream, the values and
    what follows them are equal ([Varuint32] and [Varuint64]). *)
Theorem Varuint_self_delimiting :
  (forall u v r1 r2, 0 <= u < two32 -> 0 <= v < two32 ->
     varuint32_bytes u ++ r1 = varuint32_bytes v ++ r2 -> u = v /\ r1 = r2) /\
  (forall u v r1 r2, 0 <= u < two64 -> 0 <= v < two64 ->
     varuint64_bytes u ++ r1 = varuint64_bytes v ++ r2 -> u = v /\ r1 = r2).
Proof.
  split; intros u v r1 r2 Hu Hv He.
  - pose proof (leb_read_varuint32 u r1 Hu) as H1. rewrite He, leb_read_varuint32 in H1 by exact Hv.
    injection H1 as -> ->. split; reflexivity.
  - pose proof (leb_read_varuint64 u r1 Hu) as H1. rewrite He, leb_read_varuint64 in H1 by exact Hv.
    injection H1 as -> ->. split; reflexivity.
Qed.

Lemma Varuint_self_delimiting_witness :
  127 = 127 /\ [1] = [1].
Proof.
  destruct Varuint_self_delimiting as [H _].
  apply (H 127 127 [1] [1]); [unfold two32; lia | unfold two32; lia | reflexivity].
Defined.

(** X4: the signed varints delimit themselves and lose nothing: when the
    bytes of two int32 (int64) values, each followed by more bytes, form the
    same stream, the values and what follows them are equal. *)
Theorem Varint_self_delimiting :
  (forall x y r1 r2, is_int32 x -> is_int32 y ->
     varint32_bytes x ++ r1 = varint32_bytes y ++ r2 -> x = y /\ r1 = r2) /\
  (forall x y r1 r2, is_int64 x -> is_int64 y ->
     varint64_bytes x ++ r1 = varint64_bytes y ++ r2 -> x = y /\ r1 = r2).
Proof.
  split; intros x y r1 r2 Hx Hy He.
  - pose proof (leb_read_varint32 x r1 Hx) as H1. rewrite He, leb_read_varint32 in H1 by exact Hy.
    injection H1 as Hz ->. split; [apply zigzag_spec_inj; symmetry; exact Hz | reflexivity].
  - pose proof (leb_read_varint64 x r1 Hx) as H1. rewrite He, leb_read_varint64 in H1 by exact Hy.
    injection H1 as Hz ->. split; [apply zigzag_spec_inj; symmetry; exact Hz | reflexivity].
Qed.

Lemma Varint_self_delimiting_witness :
  -5 = -5 /\ [7; 8] = [7; 8].
Proof.
  destruct Varint_self_delimiting as [H _].
  apply (H (-5) (-5) [7; 8] [7; 8]); [unfold is_int32; lia | unfold is_int32; lia | reflexivity].
Defined.

(** X5: exactly the small values take one byte: a uint32 [u] is written by
    [Varuint32] as one byte iff [u < 128], an int32 [x] by [Varint32] (and an
    int64 by [Varint64]) iff [-64 <= x < 64]. *)
Theorem Varint_one_byte :
  (forall u, 0 <= u < two32 -> length (varuint32_bytes u) = 1%nat <-> u < 128) /\
  (forall x, is_int32 x -> length (varint32_bytes x) = 1%nat <-> -64 <= x < 64) /\
  (forall x, is_int64 x -> length (varint64_bytes x) = 1%nat <-> -64 <= x < 64).
Proof.
  assert (Hz : forall x, zigzag_spec x < 128 <-> -64 <= x < 64).
  { intros x. rewrite zigzag_spec_arith.
    destruct (x <? 0) eqn:E; [apply Z.ltb_lt in E | apply Z.ltb_ge in E]; lia. }
  split; [|split].
  - intros u Hu. rewrite varuint32_bytes_leb128, length_leb128_spec by exact Hu.
    apply leb128_groups_one. lia.
  - intros x Hx. rewrite varint32_bytes_leb128, length_leb128_spec by exact Hx.
    rewrite leb128_groups_one by (apply zigzag_spec_range32; exact Hx). apply Hz.
  - intros x Hx. rewrite varint64_bytes_leb128, length_leb128_spec by exact Hx.
    rewrite leb128_groups_one by (apply zigzag_spec_range64; exact Hx). apply Hz.
Qed.

Lemma Varint_one_byte_witness :
  (length (varint32_bytes (-64)) = 1%nat <-> -64 <= -64 < 64).
Proof.
  destruct Varint_one_byte as [_ [H _]]. apply H. unfold is_int32. lia.
Defined.

(** ** Length-prefixed strings and byte slices *)

(** [func (w *Writer) ByteSlice(x *[]byte)] *)
Definition ByteSlice (x : list Z) : W :=
  Varuint32 (to_uint32 (Z.of_nat (length x))) >>> WriteBytes x.

Definition is_byte (z : Z) : Prop := 0 <= z < 256.

Lemma to_uint32_small z : 0 <= z < two32 -> to_uint32 z = z.
Proof. intros H. unfold to_uint32. apply Z.mod_small. exact H. Qed.

(** Two length-prefixed byte runs that begin the same stream are equal, and
    so is what follows them. *)
Lemma prefixed_split (p q r1 r2 : list Z) :
  Z.of_nat (length p) < two32 -> Z.of_nat (length q) < two32 ->
  varuint32_bytes (Z.of_nat (length p)) ++ p ++ r1 =
  varuint32_bytes (Z.of_nat (length q)) ++ q ++ r2 ->
  p = q /\ r1 = r2.
Proof.
  intros Hp Hq He.
  pose proof (leb_read_varuint32 (Z.of_nat (length p)) (p ++ r1) ltac:(lia)) as H1.
  rewrite He, leb_read_varuint32 in H1 by lia.
  injection H1 as Hl Hr.
  apply app_inj_1; [lia | symmetry; exact Hr].
Qed.

Lemma map_to_byte_id (p : list Z) : Forall is_byte p -> map to_byte p = p.
Proof.
  induction 1 as [|z p Hz Hp IH]; [reflexivity|].
  cbn [map]. rewrite IH, to_byte_small by exact Hz. reflexivity.
Qed.

Lemma string_to_bytes_bytes s : Forall is_byte (string_to_bytes s).
Proof.
  unfold string_to_bytes. induction (list_ascii_of_string s) as [|c l IH]; constructor; [|exact IH].
  pose proof (Ascii.nat_ascii_bounded c). unfold is_byte. lia.
Qed.

Lemma length_string_to_bytes s : length (string_to_bytes s) = String.length s.
Proof. unfold string_to_bytes. rewrite length_map. induction s as [|c s IH]; simpl; lia. Qed.

Lemma string_to_bytes_inj s t : string_to_bytes s = string_to_bytes t -> s = t.
Proof.
  intros H.
  assert (Hinv : forall u, map (fun z => Ascii.ascii_of_nat (Z.to_nat z)) (string_to_bytes u) =
                           list_ascii_of_string u).
  { intros u. unfold string_to_bytes. rewrite map_map.
    induction (list_ascii_of_string u) as [|c l IH]; [reflexivity|].
    cbn [map]. rewrite IH, Nat2Z.id, Ascii.ascii_nat_embedding. reflexivity. }
  rewrite <- (string_of_list_ascii_of_string s), <- (string_of_list_ascii_of_string t).
  rewrite <- !Hinv, H. reflexivity.
Qed.

Lemma string_bytes_eq s :
  string_bytes s = varuint32_bytes (to_uint32 (Z.of_nat (String.length s))) ++ string_to_bytes s.
Proof.
  unfold string_bytes, bytes_of, String.
  rewrite (seq_appends _ _ _ _ (appends_Varuint32 _)). cbn.
  rewrite map_to_byte_id by apply string_to_bytes_bytes. reflexivity.
Qed.

Lemma string_split s t r1 r2 :
  Z.of_nat (String.length s) < two32 -> Z.of_nat (String.length t) < two32 ->
  string_bytes s ++ r1 = string_bytes t ++ r2 -> s = t /\ r1 = r2.
Proof.
  intros Hs Ht He. rewrite !string_bytes_eq, <- !app_assoc in He.
  rewrite !to_uint32_small in He by lia.
  rewrite <- (length_string_to_bytes s), <- (length_string_to_bytes t) in He.
  rewrite <- length_string_to_bytes in Hs, Ht.
  destruct (prefixed_split _ _ r1 r2 Hs Ht He) as [Hp Hr].
  split; [apply string_to_bytes_inj; exact Hp | exact Hr].
Qed.

(** X6: [String] delimits itself: when the written forms of two strings
    shorter than 2^32 bytes, each followed by more bytes, form the same
    stream, the strings and what follows them are equal. *)
Theorem String_self_delimiting s t r1 r2 :
  Z.of_nat (String.length s) < two32 -> Z.of_nat (String.length t) < two32 ->
  string_bytes s ++ r1 = string_bytes t ++ r2 -> s = t /\ r1 = r2.
Proof. apply string_split. Qed.

Lemma String_self_delimiting_witness : "stone"%string = "stone"%string /\ [3] = [3].
Proof.
  apply (String_self_delimiting "stone" "stone" [3] [3]); [unfold two32; simpl; lia ..|].
  reflexivity.
Defined.

(** X7: [ByteSlice] delimits itself: when the written forms of two byte
    slices shorter than 2^32 bytes, each followed by more bytes, form the same
    stream, the slices and what follows them are equal. *)
Theorem ByteSlice_self_delimiting (p q r1 r2 : list Z) :
  Forall is_byte p -> Forall is_byte q ->
  Z.of_nat (length p) < two32 -> Z.of_nat (length q) < two32 ->
  bytes_of (ByteSlice p) ++ r1 = bytes_of (ByteSlice q) ++ r2 -> p = q /\ r1 = r2.
Proof.
  intros Bp Bq Hp Hq He. unfold bytes_of, ByteSlice in He.
  rewrite !(seq_appends _ _ _ _ (appends_Varuint32 _)) in He. cbn in He.
  rewrite !map_to_byte_id, !to_uint32_small, <- !app_assoc in He by (assumption || lia).
  exact (prefixed_split p q r1 r2 Hp Hq He).
Qed.

Lemma ByteSlice_self_delimiting_witness : [1; 255] = [1; 255] /\ @nil Z = [].
Proof.
  apply ByteSlice_self_delimiting;
    [repeat constructor; unfold is_byte; lia .. | unfold two32; simpl; lia | unfold two32; simpl; lia |].
  reflexivity.
Defined.

(** ** Colours *)

(** [color.RGBA]: four uint8 channels. *)
Record RGBA := mkRGBA { R : Z; G : Z; B : Z; A : Z }.

(** [func (w *Writer) VarRGBA(x *color.RGBA)]: the channels packed into a
    uint32, [R] lowest. *)
Definition VarRGBA (x : RGBA) : W :=
  let val := Z.lor (Z.lor (Z.lor (R x) (to_uint32 (Z.shiftl (G x) 8)))
                          (to_uint32 (Z.shiftl (B x) 16)))
                   (to_uint32 (Z.shiftl (A x) 24)) in
  Varuint32 val.

Definition rgba_ok (x : RGBA) : Prop :=
  is_byte (R x) /\ is_byte (G x) /\ is_byte (B x) /\ is_byte (A x).

Lemma lor_shiftl_add a c n :
  0 <= n -> 0 <= a < 2 ^ n -> Z.lor a (c * 2 ^ n) = a + c * 2 ^ n.
Proof.
  intros Hn Ha. rewrite <- Z.shiftl_mul_pow2 by exact Hn.
  assert (H0 : Z.land a (Z.shiftl c n) = 0).
  { apply Z.bits_inj'; intros i Hi. rewrite Z.land_spec, Z.bits_0.
    destruct (Z.lt_ge_cases i n).
    - rewrite Z.shiftl_spec_low by lia. apply andb_false_r.
    - replace (Z.testbit a i) with (Z.testbit (a mod 2 ^ n) i)
        by (rewrite Z.mod_small by lia; reflexivity).
      rewrite Z.mod_pow2_bits_high by lia. reflexivity. }
  rewrite <- Z.lxor_lor, <- Z.add_nocarry_lxor by exact H0.
  rewrite Z.shiftl_mul_pow2 by lia. reflexivity.
Qed.

Lemma VarRGBA_value r g b a :
  rgba_ok (mkRGBA r g b a) ->
  VarRGBA (mkRGBA r g b a) = Varuint32 (r + g * 2 ^ 8 + b * 2 ^ 16 + a * 2 ^ 24).
Proof.
  unfold rgba_ok, is_byte; cbn [R G B A]; intros (Hr & Hg & Hb & Ha).
  unfold VarRGBA; cbn [R G B A].
  rewrite !Z.shiftl_mul_pow2 by lia. rewrite !to_uint32_small by (unfold two32; lia).
  rewrite (lor_shiftl_add r g 8), (lor_shiftl_add _ b 16), (lor_shiftl_add _ a 24) by lia.
  reflexivity.
Qed.

Lemma byte_digit v lo d n :
  0 <= n -> 0 <= lo < 2 ^ n -> 0 <= d < 256 ->
  (exists hi, v = lo + (d + hi * 256) * 2 ^ n) -> (v / 2 ^ n) mod 2 ^ 8 = d.
Proof.
  intros Hn Hlo Hd [hi ->]. rewrite Z.div_add by lia.
  rewrite Z.div_small by lia. rewrite Z.add_0_l.
  change (2 ^ 8) with 256. rewrite Z.mod_add by lia. apply Z.mod_small. exact Hd.
Qed.

(** X8: [VarRGBA] loses nothing: for channels that are bytes, reading its
    output back as a varuint32 gives a value whose four bytes, lowest first,
    are R, G, B and A, and the bytes after it are untouched. *)
Theorem VarRGBA_round_trip x r :
  rgba_ok x ->
  exists v, leb_read 32 (bytes_of (VarRGBA x) ++ r) = Some (v, r) /\
    mkRGBA (Z.land v 255) (Z.land (Z.shiftr v 8) 255)
           (Z.land (Z.shiftr v 16) 255) (Z.land (Z.shiftr v 24) 255) = x.
Proof.
  destruct x as [rr gg bb aa]; intros Hx. rewrite (VarRGBA_value _ _ _ _ Hx).
  destruct Hx as (Hr & Hg & Hb & Ha); unfold is_byte in *; cbn in *.
  exists (rr + gg * 2 ^ 8 + bb * 2 ^ 16 + aa * 2 ^ 24). split.
  - apply leb_read_varuint32. unfold two32. lia.
  - change 255 with (Z.ones 8). rewrite !Z.land_ones, !Z.shiftr_div_pow2 by lia.
    f_equal.
    + rewrite <- (Z.div_1_r (rr + gg * 2 ^ 8 + bb * 2 ^ 16 + aa * 2 ^ 24)).
      change 1 with (2 ^ 0). apply (byte_digit _ 0); try lia.
      exists (gg + bb * 2 ^ 8 + aa * 2 ^ 16). lia.
    + apply (byte_digit _ rr); try lia. exists (bb + aa * 2 ^ 8). lia.
    + apply (byte_digit _ (rr + gg * 2 ^ 8)); try lia. exists aa. lia.
    + apply (byte_digit _ (rr + gg * 2 ^ 8 + bb * 2 ^ 16)); try lia. exists 0. lia.
Qed.

Lemma VarRGBA_round_trip_witness :
  exists v, leb_read 32 (bytes_of (VarRGBA (mkRGBA 255 0 128 1)) ++ [7]) = Some (v, [7]) /\
    mkRGBA (Z.land v 255) (Z.land (Z.shiftr v 8) 255)
           (Z.land (Z.shiftr v 16) 255) (Z.land (Z.shiftr v 24) 255) = mkRGBA 255 0 128 1.
Proof.
  apply VarRGBA_round_trip. unfold rgba_ok, is_byte; cbn; lia.
Defined.

(** ** The UUID layout is its own inverse *)

Lemma UUID_output (h : heap) a u out :
  h !! a = Some u -> length u = 16%nat -> Forall is_byte u ->
  snd (UUID h a out) = Ok (out ++ uuid_wire u).
Proof.
  intros Hu Hlen Hbytes. rewrite (UUID_unfold h a u out Hu Hlen). cbn [snd].
  do 16 (destruct u as [|? u]; [discriminate Hlen|]).
  destruct u; [|discriminate Hlen].
  repeat match goal with
         | H : Forall _ (_ :: _) |- _ => apply Forall_cons in H as [? H]
         end.
  unfold WriteBytes. cbn. repeat rewrite to_byte_small by assumption. reflexivity.
Qed.

Lemma uuid_wire_length u : length u = 16%nat -> length (uuid_wire u) = 16%nat.
Proof.
  intros Hlen. do 16 (destruct u as [|? u]; [discriminate Hlen|]).
  destruct u; [reflexivity | discriminate Hlen].
Qed.

Lemma uuid_wire_involutive u : length u = 16%nat -> uuid_wire (uuid_wire u) = u.
Proof.
  intros Hlen. do 16 (destruct u as [|? u]; [discriminate Hlen|]).
  destruct u; [reflexivity | discriminate Hlen].
Qed.

Lemma uuid_wire_bytes u : Forall is_byte u -> Forall is_byte (uuid_wire u).
Proof.
  intros H. unfold uuid_wire. apply List.Forall_rev, Forall_app.
  split; [apply Forall_drop | apply Forall_take]; exact H.
Qed.

(** X9: [UUID] undoes itself: when the bytes it writes for the array [u] are
    stored as a [uuid.UUID] and written again, the result is [u]. *)
Theorem UUID_round_trip (h : heap) a u w (h' : heap) a' out :
  h !! a = Some u -> length u = 16%nat -> Forall is_byte u ->
  snd (UUID h a []) = Ok w -> h' !! a' = Some w ->
  snd (UUID h' a' out) = Ok (out ++ u).
Proof.
  intros Hu Hlen Hb Hw Hw'.
  rewrite (UUID_output h a u [] Hu Hlen Hb) in Hw. injection Hw as <-.
  rewrite (UUID_output h' a' (uuid_wire u) out Hw' (uuid_wire_length u Hlen) (uuid_wire_bytes u Hb)).
  rewrite uuid_wire_involutive by exact Hlen. reflexivity.
Qed.

Lemma UUID_round_trip_witness :
  snd (UUID {[ 3%nat := uuid_wire uuid_sample ]} 3 [9]) = Ok ([9] ++ uuid_sample).
Proof.
  apply (UUID_round_trip {[ 0%nat := uuid_sample ]} 0 uuid_sample (uuid_wire uuid_sample)).
  - apply lookup_singleton_eq.
  - reflexivity.
  - unfold uuid_sample, is_byte. simpl. repeat (constructor; [lia|]). constructor.
  - vm_compute. reflexivity.
  - apply lookup_singleton_eq.
Defined.

(** ** Entity metadata that completes *)

(** Whether one entry of the metadata map is written without a panic: a
    value of one of the nine known types, and for an NBT compound, one the
    encoder accepts. *)
Definition entry_ok (env : Env) (kv : Z * GoValue) : Prop :=
  match snd kv with
  | GCompound c => snd (nbt_encode env c NetworkLittleEndian) = None
  | GOther _ => False
  | _ => True
  end.

Lemma appends_Float32 env x : appends (Float32 env x) (float32_bytes env x).
Proof. intros b. reflexivity. Qed.

Lemma appends_ok m bs b : appends m bs -> exists b', m b = Ok b'.
Proof. intros H. eexists. apply H. Qed.

#[local] Hint Resolve appends_String appends_Float32 appends_WriteBytes appends_WriteByte : appends.

Lemma entity_entry_ok env kv b :
  (exists b', entity_entry env kv b = Ok b') <-> entry_ok env kv.
Proof.
  destruct kv as [k v]. unfold entry_ok; cbn [snd].
  destruct v as [v|v|v|v|s|c|x y z|v|x y z|t]; cbn [entity_entry];
    rewrite (seq_appends _ _ _ _ (appends_Varuint32 _));
    try rewrite (seq_appends _ _ _ _ (appends_Varuint32 _));
    try (split; [intros _; exact I | intros _];
         unfold BlockPosW, Vec3; eapply appends_ok; solve [eauto with appends]).
  - unfold NBT. destruct (nbt_encode env c NetworkLittleEndian) as [bs [e|]]; cbn [snd].
    + split; [intros [b' H]; discriminate H | discriminate].
    + split; [reflexivity | intros _; eexists; reflexivity].
  - split; [intros [b' H]; discriminate H | intros []].
Qed.

Lemma for_each_ok {A} (body : A -> W) (P : A -> Prop) (l : list A) :
  (forall e b, (exists b', body e b = Ok b') <-> P e) ->
  forall b, (exists b', for_each body l b = Ok b') <-> Forall P l.
Proof.
  intros Hb. induction l as [|e l IH]; intros b; cbn [for_each].
  - split; [constructor | intros _; eexists; reflexivity].
  - rewrite Forall_cons. unfold seqw. destruct (body e b) as [b1|msg b1] eqn:E.
    + rewrite <- IH, <- (Hb e b). split.
      * intros H. split; [eauto | exact H].
      * intros [_ H]. exact H.
    + rewrite <- (Hb e b), E. split.
      * intros [b' H]; discriminate H.
      * intros [[b' H] _]; discriminate H.
Qed.

(** X10: [EntityMetadata] completes exactly when every entry of the map has
    one of the nine known dynamic types and every NBT compound in it is
    accepted by the encoder; otherwise it panics.  This holds for every
    order of the [range] loop and every buffer. *)
Theorem EntityMetadata_completes_iff env (m : list (Z * GoValue)) b :
  (exists b', EntityMetadata env m b = Ok b') <-> Forall (entry_ok env) m.
Proof.
  unfold EntityMetadata. rewrite (seq_appends _ _ _ _ (appends_Varuint32 _)).
  apply for_each_ok. apply entity_entry_ok.
Qed.

(** ** Writers that do not read the buffer *)















(** ** Packets built on the writer *)

Module MobArmourEquipment.

(** [packet.MobArmourEquipment] *)
Record t := mk {
  EntityRuntimeID : Z;
  Helmet : ItemStack;
  Chestplate : ItemStack;
  Leggings : ItemStack;
  Boots : ItemStack
}.

(** [func (pk *MobArmourEquipment) Marshal(w *protocol.Writer)] *)
Definition Marshal (env : Env) (pk : t) : W :=
  Varuint64 (EntityRuntimeID pk) >>>
  Item env (Helmet pk) >>> Item env (Chestplate pk) >>>
  Item env (Leggings pk) >>> Item env (Boots pk).

End MobArmourEquipment.

Module BlockActorData.

(** [packet.BlockActorData] *)
Record t := mk {
  Position : BlockPos;
  NBTData : list (string * GoValue)
}.

(** [func (pk *BlockActorData) Marshal(w *protocol.Writer)] *)
Definition Marshal (env : Env) (pk : t) : W :=
  UBlockPos (Position pk) >>> NBT env (NBTData pk) NetworkLittleEndian.

End BlockActorData.






(** Reading the position back: [protocol.Reader.UBlockPos] reads X and Z as
    zig-zag varint32s and Y as a varuint32 reinterpreted as an int32. *)
Definition unzigzag (v : Z) : Z :=
  let x := Z.shiftr v 1 in if Z.odd v then Z.lnot x else x.

Definition read_ublockpos (bs : list Z) : option (BlockPos * list Z) :=
  match leb_read 32 bs with
  | Some (vx, r1) =>
      match leb_read 32 r1 with
      | Some (vy, r2) =>
          match leb_read 32 r2 with
          | Some (vz, r3) => Some (mkBlockPos (unzigzag vx) (to_int32 vy) (unzigzag vz), r3)
          | None => None
          end
      | None => None
      end
  | None => None
  end.

Lemma unzigzag_zigzag x : unzigzag (zigzag_spec x) = x.
Proof.
  unfold unzigzag. rewrite zigzag_spec_arith, Z.shiftr_div_pow2 by lia. change (2 ^ 1) with 2.
  destruct (x <? 0).
  - replace (- 2 * x - 1) with ((- x - 1) * 2 + 1) by lia.
    rewrite Z.odd_add, Z.odd_mul, Z.div_add_l by lia. cbn [Z.odd].
    rewrite andb_false_r. cbn [xorb]. unfold Z.lnot.
    change (1 / 2) with 0. lia.
  - replace (2 * x) with (x * 2) by lia.
    rewrite Z.odd_mul, Z.div_mul by lia. cbn [Z.odd]. rewrite andb_false_r. reflexivity.
Qed.

Lemma to_int32_to_uint32 y : is_int32 y -> to_int32 (to_uint32 y) = y.
Proof.
  unfold is_int32, to_int32, to_uint32, two32. intros Hy. rewrite Z.mod_mod by lia.
  destruct (Z.lt_ge_cases y 0) as [Hn|Hp].
  - replace (y mod 2 ^ 32) with (y + 2 ^ 32)
      by (apply (Z.mod_unique y (2 ^ 32) (-1) (y + 2 ^ 32)); lia).
    destruct (y + 2 ^ 32 <? 2 ^ 31) eqn:E; [apply Z.ltb_lt in E | ]; lia.
  - rewrite Z.mod_small by lia.
    destruct (y <? 2 ^ 31) eqn:E; [reflexivity | apply Z.ltb_ge in E; lia].
Qed.

Lemma to_uint32_range y : 0 <= to_uint32 y < two32.
Proof. unfold to_uint32, two32. apply Z.mod_pos_bound. lia. Qed.

Lemma appends_UBlockPos x :
  appends (UBlockPos x)
    (varint32_bytes (bp_x x) ++ varuint32_bytes (to_uint32 (bp_y x)) ++ varint32_bytes (bp_z x)).
Proof. unfold UBlockPos. cbv zeta. auto with appends. Qed.

(** X13: a [BlockActorData] packet with an int32 position starts with the
    position, which reads back exactly (a negative Y too, through
    [int32(uint32(y))]), followed by the bytes of the NBT encoder; the packet
    completes exactly when the encoder returns no error. *)
Theorem BlockActorData_Marshal_read env pk :
  is_int32 (bp_x (BlockActorData.Position pk)) ->
  is_int32 (bp_y (BlockActorData.Position pk)) ->
  is_int32 (bp_z (BlockActorData.Position pk)) ->
  read_ublockpos (buffer_of (BlockActorData.Marshal env pk [])) =
    Some (BlockActorData.Position pk,
          fst (nbt_encode env (BlockActorData.NBTData pk) NetworkLittleEndian)) /\
  ((exists b', BlockActorData.Marshal env pk [] = Ok b') <->
   snd (nbt_encode env (BlockActorData.NBTData pk) NetworkLittleEndian) = None).
Proof.
  destruct pk as [[x y z] d]; cbn [BlockActorData.Position BlockActorData.NBTData bp_x bp_y bp_z].
  intros Hx Hy Hz. unfold BlockActorData.Marshal; cbn [BlockActorData.Position BlockActorData.NBTData].
  rewrite (seq_appends _ _ _ _ (appends_UBlockPos _)); cbn [bp_x bp_y bp_z].
  assert (Hr : forall r, read_ublockpos
                 (([] ++ varint32_bytes x ++ varuint32_bytes (to_uint32 y) ++ varint32_bytes z) ++ r) =
               Some (mkBlockPos x y z, r)).
  { intros r. cbn [app]. rewrite <- !app_assoc. unfold read_ublockpos.
    rewrite leb_read_varint32 by exact Hx.
    rewrite leb_read_varuint32 by apply to_uint32_range.
    rewrite leb_read_varint32 by exact Hz.
    rewrite !unzigzag_zigzag, to_int32_to_uint32 by exact Hy. reflexivity. }
  unfold NBT. destruct (nbt_encode env d NetworkLittleEndian) as [bs [e|]]; cbn [buffer_of fst snd].
  - split; [apply Hr | split; [intros [b' H]; discriminate H | discriminate]].
  - split; [apply Hr | split; [reflexivity | intros _; eexists; reflexivity]].
Qed.

Lemma BlockActorData_Marshal_read_witness :
  read_ublockpos (buffer_of (BlockActorData.Marshal sample_env
                   (BlockActorData.mk (mkBlockPos 1 (-1) (-300)) [("id"%string, GByte 1)]) [])) =
    Some (mkBlockPos 1 (-1) (-300),
          fst (nbt_encode sample_env [("id"%string, GByte 1)] NetworkLittleEndian)) /\
  ((exists b', BlockActorData.Marshal sample_env
                 (BlockActorData.mk (mkBlockPos 1 (-1) (-300)) [("id"%string, GByte 1)]) [] = Ok b') <->
   snd (nbt_encode sample_env [("id"%string, GByte 1)] NetworkLittleEndian) = None).
Proof. apply BlockActorData_Marshal_read; unfold is_int32; cbn; lia. Defined.

(** ** Signed and unsigned block positions *)

Lemma varint32_as_varuint32 x :
  is_int32 x -> varint32_bytes x = varuint32_bytes (zigzag_spec x).
Proof. intros H. unfold varint32_bytes, Varint32. rewrite zigzag32_spec by exact H. reflexivity. Qed.

Lemma varuint32_bytes_inj u v :
  0 <= u < two32 -> 0 <= v < two32 -> varuint32_bytes u = varuint32_bytes v -> u = v.
Proof.
  intros Hu Hv He.
  pose proof (leb_read_varuint32 u [] Hu) as H1. rewrite He, leb_read_varuint32 in H1 by exact Hv.
  congruence.
Qed.

Lemma appends_BlockPosW x :
  appends (BlockPosW x)
    (varint32_bytes (bp_x x) ++ varint32_bytes (bp_y x) ++ varint32_bytes (bp_z x)).
Proof. unfold BlockPosW. auto with appends. Qed.

(** X14: for a position with int32 coordinates, [BlockPos] (Y as a zig-zag
    varint32) and [UBlockPos] (Y as the varuint32 of [uint32(y)]) write the
    same bytes only when Y is zero; every other Y, positive or negative, is
    written differently by the two. *)
Theorem BlockPos_UBlockPos_agree_iff (x : BlockPos) :
  is_int32 (bp_x x) -> is_int32 (bp_y x) -> is_int32 (bp_z x) ->
  bytes_of (BlockPosW x) = bytes_of (UBlockPos x) <-> bp_y x = 0.
Proof.
  intros Hx Hy Hz.
  rewrite (appends_bytes_of _ _ (appends_BlockPosW x)), (appends_bytes_of _ _ (appends_UBlockPos x)).
  split.
  - intros He. apply app_inv_head in He. apply app_inv_tail in He.
    rewrite varint32_as_varuint32 in He by exact Hy.
    apply varuint32_bytes_inj in He;
      [| apply zigzag_spec_range32, Hy | apply to_uint32_range].
    revert He. rewrite zigzag_spec_arith. unfold to_uint32, two32. unfold is_int32 in Hy.
    destruct (Z.lt_ge_cases (bp_y x) 0) as [Hn|Hp].
    + replace (bp_y x mod 2 ^ 32) with (bp_y x + 2 ^ 32)
        by (apply (Z.mod_unique (bp_y x) (2 ^ 32) (-1) (bp_y x + 2 ^ 32)); lia).
      destruct (bp_y x <? 0); lia.
    + rewrite Z.mod_small by lia. destruct (bp_y x <? 0) eqn:E; [apply Z.ltb_lt in E|]; lia.
  - intros H0. rewrite H0. reflexivity.
Qed.

Lemma BlockPos_UBlockPos_agree_iff_witness :
  bytes_of (BlockPosW (mkBlockPos 5 (-1) 7)) = bytes_of (UBlockPos (mkBlockPos 5 (-1) 7)) <-> -1 = 0.
Proof. apply (BlockPos_UBlockPos_agree_iff (mkBlockPos 5 (-1) 7)); unfold is_int32; cbn; lia. Defined.

(** ** Strings and byte slices *)



(** ** The block-name lists of an item *)

Lemma to_int32_small n : 0 <= n < 2 ^ 31 -> to_int32 n = n.
Proof.
  intros Hn. unfold to_int32, two32. rewrite Z.mod_small by lia.
  destruct (n <? 2 ^ 31) eqn:E; [reflexivity | apply Z.ltb_ge in E; lia].
Qed.

Definition short_strings (l : list string) : Prop :=
  Forall (fun s => Z.of_nat (String.length s) < two32) l.

Lemma strings_split l1 l2 r1 r2 :
  length l1 = length l2 -> short_strings l1 -> short_strings l2 ->
  strings_bytes l1 ++ r1 = strings_bytes l2 ++ r2 -> l1 = l2 /\ r1 = r2.
Proof.
  revert l2; induction l1 as [|s l1 IH]; intros [|t l2] Hl H1 H2 He; try discriminate Hl.
  - split; [reflexivity | exact He].
  - unfold short_strings in H1, H2. rewrite Forall_cons in H1, H2.
    destruct H1 as [Hs H1], H2 as [Ht H2].
    unfold strings_bytes in He; cbn [map concat] in He. rewrite <- !app_assoc in He.
    destruct (string_split s t _ _ Hs Ht He) as [-> He'].
    destruct (IH l2 ltac:(cbn in Hl; lia) H1 H2 He') as [-> ->]. split; reflexivity.
Qed.

Lemma varint32_split x y r1 r2 :
  is_int32 x -> is_int32 y -> varint32_bytes x ++ r1 = varint32_bytes y ++ r2 -> x = y /\ r1 = r2.
Proof.
  intros Hx Hy He. pose proof (leb_read_varint32 x r1 Hx) as H1.
  rewrite He, leb_read_varint32 in H1 by exact Hy. injection H1 as Hz ->.
  split; [apply zigzag_spec_inj; symmetry; exact Hz | reflexivity].
Qed.

(** X16: the two block-name lists of [Item] (CanBePlacedOn, then CanBreak,
    each a varint32 count and its strings) delimit themselves: for lists of
    fewer than 2^31 strings, each shorter than 2^32 bytes, equal output
    streams mean equal lists and equal bytes after them. *)
Theorem Item_lists_self_delimiting x y r1 r2 :
  Z.of_nat (length (CanBePlacedOn x)) < 2 ^ 31 -> Z.of_nat (length (CanBreak x)) < 2 ^ 31 ->
  Z.of_nat (length (CanBePlacedOn y)) < 2 ^ 31 -> Z.of_nat (length (CanBreak y)) < 2 ^ 31 ->
  short_strings (CanBePlacedOn x) -> short_strings (CanBreak x) ->
  short_strings (CanBePlacedOn y) -> short_strings (CanBreak y) ->
  lists_bytes x ++ r1 = lists_bytes y ++ r2 ->
  CanBePlacedOn x = CanBePlacedOn y /\ CanBreak x = CanBreak y /\ r1 = r2.
Proof.
  intros L1 L2 L3 L4 S1 S2 S3 S4 He. unfold lists_bytes in He. rewrite <- !app_assoc in He.
  rewrite !to_int32_small in He by lia.
  apply varint32_split in He as [Hn1 He]; [|unfold is_int32; lia ..].
  apply strings_split in He as [Hp He]; [|lia | assumption ..].
  apply varint32_split in He as [Hn2 He]; [|unfold is_int32; lia ..].
  apply strings_split in He as [Hb He]; [|lia | assumption ..].
  auto.
Qed.

Lemma Item_lists_self_delimiting_witness :
  CanBePlacedOn shield_stack = CanBePlacedOn shield_stack /\
  CanBreak shield_stack = CanBreak shield_stack /\ [7] = [7].
Proof.
  apply (Item_lists_self_delimiting shield_stack shield_stack [7] [7]);
    cbn; try (unfold two32; lia);
    try (unfold short_strings; repeat constructor; cbn; unfold two32; lia).
Defined.
